(** * go-microservice-template: the in-memory repository and the health manager

    A shallow embedding of two packages of the service:

    - [internal/platform/repository/memory]: the generic [Repository[T]], a
      map from identifier to entity guarded by a read/write mutex, with the
      sentinel errors [ErrNotFound] and [ErrAlreadyExists];
    - [internal/platform/health]: the [Manager], a slice of [Checker]s polled
      by [CheckAll] and summarised by [IsHealthy];

    together with the example adapter that wraps the repository and the
    [MemoryChecker] probe, and with their callers: the domain's validation
    ([NewEntity], [emailRegex], [CheckEntityForCreation]), the use cases
    [CreateEntity] and [GetEntity], the mapping of their errors to HTTP
    statuses ([mapDomainError], [ErrorHandler]) and the readiness handler.

    Every method holds the receiver's lock for its whole body, so a method is
    modelled as one atomic step: a function from the receiver's state to a
    result and the next state. *)

From Stdlib Require Ascii String.
From stdpp Require Import gmap strings list fin_maps.

#[local] Set Warnings "-clear-no-such-hyp".


(** ** Go runtime notions shared by both packages *)

(** A [context.Context], as far as the code observes it: whether [Done()] is
    closed and, if so, which error [Err()] reports. *)
Inductive Context : Type :=
| Background
| Canceled
| DeadlineExceeded.

Definition ctx_done (ctx : Context) : bool :=
  match ctx with
  | Background => false
  | _ => true
  end.

(** [ctx.Err().Error()] *)
Definition ctx_err (ctx : Context) : string :=
  match ctx with
  | Background => ""
  | Canceled => "context canceled"
  | DeadlineExceeded => "context deadline exceeded"
  end.

(** [for k, v := range m]: Go fixes no iteration order for a map, and two
    loops over the same map may differ.  A method that ranges over a map
    therefore takes the runtime's choice as an argument [pick], which turns
    the map into the sequence of entries the loop meets, and [map_range pick]
    says that the choice is one the runtime may make: whatever the map, each
    of its entries exactly once. *)
Definition map_range {V : Type} (pick : gmap string V → list (string * V)) : Prop :=
  ∀ m, pick m ≡ₚ map_to_list m.

(** ** Package [memory]: the generic repository *)

Module memory.

(** The package's two sentinel errors.  [errors.New] allocates each once; a
    caller tells them apart by identity ([errors.Is]), never by message. *)
Inductive error : Type :=
| ErrNotFound
| ErrAlreadyExists.

Definition Error (e : error) : string :=
  match e with
  | ErrNotFound => "entity not found"
  | ErrAlreadyExists => "entity already exists"
  end.

#[global] Instance error_eq_dec : EqDecision error.
Proof. solve_decision. Defined.

(** [type Entity interface { GetID() string }] *)
Class Entity (T : Type) := GetID : T → string.

(** [type Repository[T Entity] struct { data map[string]T; mu sync.RWMutex }] *)
Record Repository (T : Type) : Type := mkRepository {
  data : gmap string T
}.
Arguments mkRepository {T} _.
Arguments data {T} _.

Section repository.
Context {T : Type} `{!Entity T} `{!Inhabited T}.

(** [var zero T] *)
Definition zero : T := inhabitant.

Definition New : Repository T := mkRepository ∅.

Definition Save (ctx : Context) (entity : T) (r : Repository T)
  : option error * Repository T :=
  let id := GetID entity in
  match data r !! id with
  | Some _ => (Some ErrAlreadyExists, r)
  | None => (None, mkRepository (<[id := entity]> (data r)))
  end.

Definition GetByID (ctx : Context) (id : string) (r : Repository T)
  : (T * option error) * Repository T :=
  match data r !! id with
  | None => ((zero, Some ErrNotFound), r)
  | Some entity => ((entity, None), r)
  end.

Definition Update (ctx : Context) (entity : T) (r : Repository T)
  : option error * Repository T :=
  let id := GetID entity in
  match data r !! id with
  | None => (Some ErrNotFound, r)
  | Some _ => (None, mkRepository (<[id := entity]> (data r)))
  end.

Definition Delete (ctx : Context) (id : string) (r : Repository T)
  : option error * Repository T :=
  match data r !! id with
  | None => (Some ErrNotFound, r)
  | Some _ => (None, mkRepository (delete id (data r)))
  end.

(** The body of [List]'s loop: [entities = append(entities, entity)] for
    each entry met. *)
Definition List_loop (order : list (string * T)) : list T :=
  foldl (λ entities kv, entities ++ [kv.2]) [] order.

Definition List (ctx : Context) (pick : gmap string T → list (string * T))
    (r : Repository T)
  : (list T * option error) * Repository T :=
  ((List_loop (pick (data r)), None), r).

(** [len(r.data)] is an [int]; a map never holds more than [MaxInt]
    entries, so the length is the map's size as it stands. *)
Definition Count (ctx : Context) (r : Repository T)
  : (Z * option error) * Repository T :=
  ((Z.of_nat (size (data r)), None), r).

(** A call of one of the three methods that write to the map, and what a
    sequence of such calls does to a repository: the error of each call,
    in order, and the repository at the end.  Since the fields are
    unexported, a repository is only ever [New] after such a sequence. *)
Inductive mutation : Type :=
| CallSave (entity : T)
| CallUpdate (entity : T)
| CallDelete (id : string).

Definition exec (ctx : Context) (c : mutation) (r : Repository T)
  : option error * Repository T :=
  match c with
  | CallSave entity => Save ctx entity r
  | CallUpdate entity => Update ctx entity r
  | CallDelete id => Delete ctx id r
  end.

Definition exec_all (ctx : Context) (cs : list mutation) (r : Repository T)
  : list (option error) * Repository T :=
  foldl (λ acc c, let '(err, r') := exec ctx c acc.2 in (acc.1 ++ [err], r'))
        ([], r) cs.

(** The suite's loop [for _, entity := range entities { repo.Save(ctx, entity) }]. *)
Definition save_each (ctx : Context) (entities : list T) (r : Repository T)
  : list (option error) * Repository T :=
  exec_all ctx (CallSave <$> entities) r.

(** Every record sits under its own identifier. *)
Definition keyed (r : Repository T) : Prop :=
  ∀ id entity, data r !! id = Some entity → GetID entity = id.

(** Whether a call of the sequence succeeded as a [Save], or as a
    [Delete]; for the bookkeeping of [Count]. *)
Definition saved (c : mutation) (err : option error) : bool :=
  match c, err with
  | CallSave _, None => true
  | _, _ => false
  end.

Definition deleted (c : mutation) (err : option error) : bool :=
  match c, err with
  | CallDelete _, None => true
  | _, _ => false
  end.

End repository.
Arguments mutation : clear implicits.

(** How many of a list of outcomes are [true]. *)
Definition tally (bs : list bool) : Z := Z.of_nat (length (filter Is_true bs)).

(** The test suite's entity: [type TestEntity struct { ID, Name string }].
    The suite stores pointers to it; a stored pointer stands here for the
    struct it points to, which no operation of the repository changes. *)
Record TestEntity : Type := mkTestEntity {
  ID : string;
  Name : string
}.

#[global] Instance TestEntity_GetID : Entity TestEntity := ID.

#[global] Instance TestEntity_inhabited : Inhabited TestEntity :=
  populate (mkTestEntity "" "").

(** Sample data, after the suite's [createTestEntity] and [saveTestEntity]. *)
Definition alice : TestEntity := mkTestEntity "u1" "Alice".
Definition alice' : TestEntity := mkTestEntity "u1" "Alicia".
Definition bob : TestEntity := mkTestEntity "u2" "Bob".

Definition store_alice : Repository TestEntity :=
  (Save Background alice New).2.

Definition store_bob : Repository TestEntity :=
  (Save Background bob New).2.

(** A sequence of calls as the suite makes them: two saves, a save refused,
    an update, a delete and a delete refused. *)
Definition suite_calls : list (mutation TestEntity) :=
  [CallSave alice; CallSave bob; CallSave alice'; CallUpdate alice';
   CallDelete "u2"; CallDelete "u3"].

End memory.

(** ** Package [example]: the domain entity and its errors *)

Module example.

(** [type Entity struct { ID, Email, Name string }] *)
Record Entity : Type := mkEntity {
  ID : string;
  Email : string;
  Name : string
}.

(** [func (e *Entity) GetID() string] *)
#[global] Instance Entity_GetID : memory.Entity Entity := ID.

#[global] Instance Entity_inhabited : Inhabited Entity :=
  populate (mkEntity "" "" "").

(** The domain's own errors that the repository adapter can return:
    the sentinel [ErrEntityNotFound] and the struct
    [AlreadyExistsError { ID string }]. *)
Inductive error : Type :=
| ErrEntityNotFound
| AlreadyExistsError (ID : string).

(** [func (e *AlreadyExistsError) Error() string] *)
Definition Error (e : error) : string :=
  match e with
  | ErrEntityNotFound => "entity not found"
  | AlreadyExistsError id => "entity with id '" +:+ id +:+ "' already exists"
  end.

End example.

(** ** The example adapter over the generic repository *)

Module adapter.

(** The adapter's [Save] returns Go's [error] interface, which here holds
    either an error of the platform package, passed on as it is, or one of
    the domain's. *)
Definition error : Type := memory.error + example.error.

(** [type Repository struct { *memoryPlatform.Repository[*example.Entity] }] *)
Definition Repository : Type := memory.Repository example.Entity.

Definition NewRepository : Repository := memory.New.

Definition Save (ctx : Context) (entity : example.Entity) (r : Repository)
  : option error * Repository :=
  match memory.Save ctx entity r with
  | (Some err, r') =>
      if decide (err = memory.ErrAlreadyExists)
      then (Some (inr (example.AlreadyExistsError (example.ID entity))), r')
      else (Some (inl err), r')
  | (None, r') => (None, r')
  end.

(** [GetByID] of the adapter.  It returns a pointer: [None] is nil, and
    a stored pointer is given by the entity it points to. *)
Definition GetByID (ctx : Context) (id : string) (r : Repository)
  : (option example.Entity * option error) * Repository :=
  match memory.GetByID ctx id r with
  | ((_, Some err), r') =>
      if decide (err = memory.ErrNotFound)
      then ((None, Some (inr example.ErrEntityNotFound)), r')
      else ((None, Some (inl err)), r')
  | ((entity, None), r') => ((Some entity, None), r')
  end.

End adapter.

(** ** Package [health]: the manager of health checkers *)

Module health.

(** [type Status string] *)
Abbreviation Status_t := string (only parsing).

Definition StatusHealthy : Status_t := "healthy".
Definition StatusUnhealthy : Status_t := "unhealthy".

(** [time.Duration]: a signed 64-bit count of nanoseconds. *)
Abbreviation Duration := Z (only parsing).

Definition minDuration : Duration := - 2 ^ 63.
Definition maxDuration : Duration := 2 ^ 63 - 1.

(** [time.Since(start)], from two readings of the monotonic clock: the
    difference, saturated to the range of a [Duration]. *)
Definition Since (start now : Z) : Duration :=
  let d := (now - start)%Z in
  if (d <? minDuration)%Z then minDuration
  else if (maxDuration <? d)%Z then maxDuration
  else d.

Record CheckResult : Type := mkCheckResult {
  Status : Status_t;
  Message : string;
  Latency : Duration;
  Error : string
}.

(** [result.Latency = d] *)
Definition set_Latency (d : Duration) (result : CheckResult) : CheckResult :=
  {| Status := Status result;
     Message := Message result;
     Latency := d;
     Error := Error result |}.

(** What a checker runs in and acts on: everything outside the manager,
    of which the manager itself reads only the clock ([time.Now()]). *)
Class World (W : Type) := Now : W → Z.

(** A value implementing [type Checker interface { Name() string;
    Check(ctx context.Context) CheckResult }]. *)
Record Checker (W : Type) : Type := mkChecker {
  Name : string;
  Check : Context → W → CheckResult * W
}.
Arguments mkChecker {W} _ _.
Arguments Name {W} _.
Arguments Check {W} _ _ _.

(** The state a round of checks threads through: the world, and a log of
    the checkers called so far, oldest first.  The log is bookkeeping of
    the model; no code reads it. *)
Record Run (W : Type) : Type := mkRun {
  world : W;
  invoked : list (Checker W)
}.
Arguments mkRun {W} _ _.
Arguments world {W} _.
Arguments invoked {W} _.

(** [type Manager struct { checkers []Checker; mu sync.RWMutex }].  An
    element of the slice is an interface value: [None] is the nil
    interface, which [Register] accepts like any other. *)
Record Manager (W : Type) : Type := mkManager {
  checkers : list (option (Checker W))
}.
Arguments mkManager {W} _.
Arguments checkers {W} _.

Section manager.
Context {W : Type} `{!World W}.

Definition NewManager : Manager W := mkManager [].

Definition Register (checker : option (Checker W)) (m : Manager W) : Manager W :=
  mkManager (checkers m ++ [checker]).

(** [checker.Check(ctx)] on a non-nil checker. *)
Definition call (checker : Checker W) (ctx : Context) (s : Run W)
  : CheckResult * Run W :=
  let '(result, w) := Check checker ctx (world s) in
  (result, mkRun w (invoked s ++ [checker])).

(** One pass through the body of [CheckAll]'s loop up to the store into
    the mapping: read the clock, call the checker, and overwrite the
    latency of what it returned by the time elapsed. *)
Definition timed_check (checker : Checker W) (ctx : Context) (s : Run W)
  : CheckResult * Run W :=
  let start := Now (world s) in
  let '(result, s1) := call checker ctx s in
  (set_Latency (Since start (Now (world s1))) result, s1).

(** The loop of [CheckAll] over the copied slice.  Calling a method of
    the nil interface panics: the round ends there with no mapping
    ([None]), in the state reached so far. *)
Fixpoint CheckAll_loop (ctx : Context) (cs : list (option (Checker W)))
    (results : gmap string CheckResult) (s : Run W)
  : option (gmap string CheckResult) * Run W :=
  match cs with
  | [] => (Some results, s)
  | None :: _ => (None, s)
  | Some checker :: rest =>
      let '(result, s1) := timed_check checker ctx s in
      CheckAll_loop ctx rest (<[Name checker := result]> results) s1
  end.

Definition CheckAll (ctx : Context) (m : Manager W) (s : Run W)
  : option (gmap string CheckResult) * Run W :=
  CheckAll_loop ctx (checkers m) ∅ s.

(** The loop of [IsHealthy] over the mapping, along the order the runtime
    picked. *)
Fixpoint IsHealthy_loop (order : list (string * CheckResult)) : bool :=
  match order with
  | [] => true
  | (_, result) :: rest =>
      if decide (Status result = StatusUnhealthy) then false
      else IsHealthy_loop rest
  end.

Definition IsHealthy (ctx : Context)
    (pick : gmap string CheckResult → list (string * CheckResult))
    (m : Manager W) (s : Run W)
  : option bool * Run W :=
  match CheckAll ctx m s with
  | (Some results, s1) => (Some (IsHealthy_loop (pick results)), s1)
  | (None, s1) => (None, s1)
  end.

(** A manager on which the given probes were registered, in this order. *)
Definition registered (probes : list (Checker W)) : Manager W :=
  foldl (λ m probe, Register (Some probe) m) NewManager probes.

(** The state in which the probe at index [i] is called during a round
    over [probes] started in [s]: the state that a round over the probes
    registered before it ends in. *)
Definition state_before (ctx : Context) (probes : list (Checker W)) (i : nat)
    (s : Run W) : Run W :=
  (CheckAll ctx (registered (take i probes)) s).2.

(** The probe at index [i] is the last one registered under its name. *)
Definition last_of_name (probes : list (Checker W)) (i : nat) : Prop :=
  ∀ j p q, probes !! i = Some p → probes !! j = Some q → i < j →
           Name q ≠ Name p.

(** The loop on probes, none of them nil, as a fold of its body over the
    mapping and the state; used to reason about [CheckAll_loop]. *)
Definition iteration (ctx : Context)
    (acc : gmap string CheckResult * Run W) (probe : Checker W)
  : gmap string CheckResult * Run W :=
  let '(result, s1) := timed_check probe ctx acc.2 in
  (<[Name probe := result]> acc.1, s1).

Definition round (ctx : Context) (probes : list (Checker W))
    (results : gmap string CheckResult) (s : Run W)
  : gmap string CheckResult * Run W :=
  foldl (iteration ctx) (results, s) probes.

End manager.

(** [MemoryChecker], from the adapters: it looks at the context only. *)
Definition MemoryChecker {W : Type} : Checker W :=
  mkChecker "memory_storage" (λ ctx w,
    if ctx_done ctx
    then (mkCheckResult StatusUnhealthy "memory storage check cancelled" 0
            (ctx_err ctx), w)
    else (mkCheckResult StatusHealthy "memory storage operational" 0 "", w)).

(** The test suite's [mockHealthChecker]: it sleeps for [delay] when that
    is positive, then returns [result].  The world here is the clock. *)
#[global] Instance clock_world : World Z := λ w, w.

Definition mockHealthChecker (name : string) (result : CheckResult)
    (delay : Duration) : Checker Z :=
  mkChecker name (λ _ w,
    (result, if (0 <? delay)%Z then (w + delay)%Z else w)).

(** Sample probes, after the suite's: a healthy ["db"] that takes 5ns and
    claims a latency of its own, an unhealthy ["cache"], and a second,
    unhealthy probe registered under the name ["db"]. *)
Definition probe_db : Checker Z :=
  mockHealthChecker "db" (mkCheckResult StatusHealthy "ok" 100 "") 5.
Definition probe_cache : Checker Z :=
  mockHealthChecker "cache" (mkCheckResult StatusUnhealthy "" 0 "timeout") 0.
Definition probe_db2 : Checker Z :=
  mockHealthChecker "db" (mkCheckResult StatusUnhealthy "down" 0 "refused") 2.

(** A round starting when the clock reads 1000. *)
Definition at_1000 : Run Z := mkRun 1000%Z [].

(** What a round over [probe_db] and [probe_cache] records. *)
Definition db_entry : CheckResult := mkCheckResult StatusHealthy "ok" 5 "".
Definition cache_entry : CheckResult :=
  mkCheckResult StatusUnhealthy "" 0 "timeout".
Definition db_cache_results : gmap string CheckResult :=
  <["db" := db_entry]> (<["cache" := cache_entry]> ∅).

End health.

(** ** Regular expressions, as far as [emailRegex] needs them *)

Module regexp.
Import Stdlib.Strings.Ascii.

(** The syntax that the pattern of [emailRegex] is built from.  A class
    is given by its test on a byte: the classes of the pattern hold ASCII
    characters only, so no byte of a longer UTF-8 sequence is in one. *)
Inductive regex : Type :=
| Void
| Eps
| Class (p : Ascii.ascii → bool)
| Seq (r1 r2 : regex)
| Alt (r1 r2 : regex)
| Star (r : regex).

(** [r+] *)
Definition Plus (r : regex) : regex := Seq r (Star r).

(** [r{2,}] *)
Definition AtLeast2 (r : regex) : regex := Seq r (Seq r (Star r)).

(** The strings a pattern denotes. *)
Inductive matches : regex → list Ascii.ascii → Prop :=
| matches_Eps : matches Eps []
| matches_Class p c : p c = true → matches (Class p) [c]
| matches_Seq r1 r2 s1 s2 :
    matches r1 s1 → matches r2 s2 → matches (Seq r1 r2) (s1 ++ s2)
| matches_Alt_l r1 r2 s : matches r1 s → matches (Alt r1 r2) s
| matches_Alt_r r1 r2 s : matches r2 s → matches (Alt r1 r2) s
| matches_Star_nil r : matches (Star r) []
| matches_Star_app r s1 s2 :
    matches r s1 → matches (Star r) s2 → matches (Star r) (s1 ++ s2).

(** Matching by derivatives. *)
Fixpoint nullable (r : regex) : bool :=
  match r with
  | Void => false
  | Eps => true
  | Class _ => false
  | Seq r1 r2 => nullable r1 && nullable r2
  | Alt r1 r2 => nullable r1 || nullable r2
  | Star _ => true
  end.

Fixpoint deriv (r : regex) (c : Ascii.ascii) : regex :=
  match r with
  | Void => Void
  | Eps => Void
  | Class p => if p c then Eps else Void
  | Seq r1 r2 =>
      if nullable r1
      then Alt (Seq (deriv r1 c) r2) (deriv r2 c)
      else Seq (deriv r1 c) r2
  | Alt r1 r2 => Alt (deriv r1 c) (deriv r2 c)
  | Star r1 => Seq (deriv r1 c) (Star r1)
  end.

Fixpoint matchb (r : regex) (s : list Ascii.ascii) : bool :=
  match s with
  | [] => nullable r
  | c :: s' => matchb (deriv r c) s'
  end.

(** [re.MatchString(s)] for a pattern anchored at both ends by [^] and [$]. *)
Definition MatchString (r : regex) (s : string) : bool :=
  matchb r (String.list_ascii_of_string s).

(** The classes of the pattern. *)
Definition in_range (lo hi c : Ascii.ascii) : bool :=
  (Ascii.N_of_ascii lo <=? Ascii.N_of_ascii c)%N && (Ascii.N_of_ascii c <=? Ascii.N_of_ascii hi)%N.

Definition is_char (x c : Ascii.ascii) : bool := Ascii.eqb x c.

(** [[a-zA-Z]] *)
Definition letter (c : Ascii.ascii) : bool :=
  in_range "a"%char "z"%char c || in_range "A"%char "Z"%char c.

(** [[a-zA-Z0-9._%+-]] *)
Definition local_char (c : Ascii.ascii) : bool :=
  letter c || in_range "0"%char "9"%char c
  || is_char "."%char c || is_char "_"%char c || is_char "%"%char c || is_char "+"%char c
  || is_char "-"%char c.

(** [[a-zA-Z0-9.-]] *)
Definition domain_char (c : Ascii.ascii) : bool :=
  letter c || in_range "0"%char "9"%char c || is_char "."%char c || is_char "-"%char c.

End regexp.

(** ** Package [example] of the domain, continued: validation *)

Module domain.
Import Stdlib.Strings.Ascii regexp.

(** The sentinel errors of [entity.go] and [service.go] that validation
    returns. *)
Inductive error : Type :=
| ErrInvalidEntityID
| ErrInvalidEmail
| ErrInvalidName
| ErrReservedName.

Definition Error (e : error) : string :=
  match e with
  | ErrInvalidEntityID => "entity ID cannot be empty"
  | ErrInvalidEmail => "invalid email format"
  | ErrInvalidName => "name cannot be empty"
  | ErrReservedName => "name is reserved"
  end.

#[global] Instance error_eq_dec : EqDecision error.
Proof. solve_decision. Defined.

(** [^[a-zA-Z0-9._%+-]+@[a-zA-Z0-9.-]+\.[a-zA-Z]{2,}$] *)
Definition emailRegex : regex :=
  Seq (Plus (Class local_char))
    (Seq (Class (is_char "@"%char))
       (Seq (Plus (Class domain_char))
          (Seq (Class (is_char "."%char))
             (AtLeast2 (Class letter))))).

(** [NewEntity]: either nil and an error, or a pointer to a new entity
    and no error. *)
Definition NewEntity (id email name : string) : error + example.Entity :=
  if decide (id = "") then inl ErrInvalidEntityID
  else if decide (name = "") then inl ErrInvalidName
  else if negb (MatchString emailRegex email) then inl ErrInvalidEmail
  else inr (example.mkEntity id email name).

(** [Service.CheckEntityForCreation].  [strings.ToLower] maps by
    Unicode's tables, which are the library's: it is a parameter. *)
Definition CheckEntityForCreation (ToLower : string → string)
    (entity : example.Entity) : option error :=
  if decide (ToLower (example.Name entity) = "admin")
  then Some ErrReservedName
  else None.

(** [strings.ToLower] on the strings that hold ASCII only. *)
Definition ascii_lower (c : Ascii.ascii) : Ascii.ascii :=
  if in_range "A"%char "Z"%char c
  then Ascii.ascii_of_N (Ascii.N_of_ascii c + 32)
  else c.

Fixpoint ascii_ToLower (s : string) : string :=
  match s with
  | EmptyString => EmptyString
  | String c s' => String (ascii_lower c) (ascii_ToLower s')
  end.

End domain.

(** ** Package [logger], as the use case calls it *)

Module logger.

Inductive Level : Type := LevelDebug | LevelInfo | LevelWarn | LevelError.

(** [type Field struct { Key string; Value interface{} }], whose value is
    here a string or an error. *)
Record Field (E : Type) : Type := mkField {
  Key : string;
  Value : string + E
}.
Arguments mkField {E} _ _.
Arguments Key {E} _.
Arguments Value {E} _.

Definition String {E : Type} (key value : string) : Field E :=
  mkField key (inl value).

Definition Error {E : Type} (err : E) : Field E :=
  mkField "error" (inr err).

(** One call of a method of the [Logger] found in the context. *)
Record Entry (E : Type) : Type := mkEntry {
  level : Level;
  msg : string;
  fields : list (Field E)
}.
Arguments mkEntry {E} _ _ _.
Arguments level {E} _.
Arguments msg {E} _.
Arguments fields {E} _.

End logger.

(** ** Package [example] of the use cases *)

Module usecase.

(** The errors a use case returns: Go's [error] holding one of the
    domain's validation errors or whatever the repository returned. *)
Inductive error : Type :=
| Invalid (e : domain.error)
| FromRepository (e : adapter.error).

(** [err.Error()] *)
Definition Error (e : error) : string :=
  match e with
  | Invalid e => domain.Error e
  | FromRepository (inl e) => memory.Error e
  | FromRepository (inr e) => example.Error e
  end.

(** The state a use case acts on: the repository, and the calls made to
    the logger so far, oldest first. *)
Record State : Type := mkState {
  repo : adapter.Repository;
  logged : list (logger.Entry error)
}.

Definition log (entry : logger.Entry error) (st : State) : State :=
  mkState (repo st) (logged st ++ [entry]).

(** [Usecase.GetEntity], with the repository of the memory adapter. *)
Definition GetEntity (ctx : Context) (id : string) (st : State)
  : (option example.Entity * option error) * State :=
  let st := log (logger.mkEntry logger.LevelDebug "Getting entity"
                   [logger.String "entity_id" id]) st in
  match adapter.GetByID ctx id (repo st) with
  | ((_, Some err), r') => ((None, Some (FromRepository err)), mkState r' (logged st))
  | ((entity, None), r') => ((entity, None), mkState r' (logged st))
  end.

(** [Usecase.CreateEntity], with the repository of the memory adapter and
    the domain's [Service] as checker, as [main] wires them. *)
Definition CreateEntity (ToLower : string → string) (ctx : Context)
    (id email name : string) (st : State)
  : (option example.Entity * option error) * State :=
  let st := log (logger.mkEntry logger.LevelDebug "Creating entity"
                   [logger.String "entity_id" id; logger.String "email" email]) st in
  match domain.NewEntity id email name with
  | inl err =>
      ((None, Some (Invalid err)),
       log (logger.mkEntry logger.LevelWarn "Invalid entity data provided"
              [logger.String "entity_id" id; logger.Error (Invalid err)]) st)
  | inr entity =>
      match domain.CheckEntityForCreation ToLower entity with
      | Some err =>
          ((None, Some (Invalid err)),
           log (logger.mkEntry logger.LevelWarn "Entity creation check failed"
                  [logger.String "entity_id" id; logger.Error (Invalid err)]) st)
      | None =>
          match adapter.Save ctx entity (repo st) with
          | (Some err, r') =>
              ((None, Some (FromRepository err)), mkState r' (logged st))
          | (None, r') => ((Some entity, None), mkState r' (logged st))
          end
      end
  end.

(** What [CreateEntity] lets into the repository. *)
Definition admissible (ToLower : string → string) (entity : example.Entity) : Prop :=
  example.ID entity ≠ ""
  ∧ example.Name entity ≠ ""
  ∧ regexp.MatchString domain.emailRegex (example.Email entity) = true
  ∧ ToLower (example.Name entity) ≠ "admin".

(** A service started on an empty repository with nothing logged, and the
    state after a sequence of [CreateEntity] calls, each given by its
    identifier, email and name. *)
Definition started : State := mkState adapter.NewRepository [].

(** Requests as the suites make them: a valid one, a second one for the
    same identifier, one without identifier, one with the reserved name. *)
Definition suite_requests : list (string * string * string) :=
  [("u1", "alice@example.com", "Alice");
   ("u1", "alicia@example.com", "Alicia");
   ("", "nobody@example.com", "Nobody");
   ("u2", "root@example.com", "Admin")].

Definition alice : example.Entity :=
  example.mkEntity "u1" "alice@example.com" "Alice".


Definition create_each (ToLower : string → string) (ctx : Context)
    (requests : list (string * string * string)) (st : State) : State :=
  foldl (λ st '(id, email, name), (CreateEntity ToLower ctx id email name st).2)
        st requests.

End usecase.

(** ** Package [http] of the platform: errors that carry a status *)

Module httperr.

(** The status codes of [net/http] that the service uses. *)
Definition StatusOK : Z := 200.
Definition StatusBadRequest : Z := 400.
Definition StatusNotFound : Z := 404.
Definition StatusConflict : Z := 409.
Definition StatusInternalServerError : Z := 500.
Definition StatusServiceUnavailable : Z := 503.

(** [type Error struct { StatusCode int; Message string; Err error }];
    [Err] is nil ([None]) or the error wrapped. *)
Record Error : Type := mkError {
  StatusCode : Z;
  Message : string;
  Err : option usecase.error
}.

(** [func (e *Error) Error() string]; [http.StatusText] is the library's
    table of reason phrases. *)
Definition Error_text (StatusText : Z → string) (e : Error) : string :=
  if decide (Message e ≠ "") then Message e
  else match Err e with
       | Some err => usecase.Error err
       | None => StatusText (StatusCode e)
       end.


Definition New (statusCode : Z) (message : string) (err : option usecase.error)
  : Error := mkError statusCode message err.

Definition NewNotFound (message : string) (err : option usecase.error) : Error :=
  New StatusNotFound message err.

Definition NewBadRequest (message : string) (err : option usecase.error) : Error :=
  New StatusBadRequest message err.

Definition NewConflict (message : string) (err : option usecase.error) : Error :=
  New StatusConflict message err.

Definition NewInternalServerError (message : string) (err : option usecase.error)
  : Error := New StatusInternalServerError message err.

(** [http.StatusText], for the codes above. *)
Definition StatusText (code : Z) : string :=
  if decide (code = 200%Z) then "OK"
  else if decide (code = 400%Z) then "Bad Request"
  else if decide (code = 404%Z) then "Not Found"
  else if decide (code = 409%Z) then "Conflict"
  else if decide (code = 500%Z) then "Internal Server Error"
  else if decide (code = 503%Z) then "Service Unavailable"
  else "".

End httperr.

(** ** The handler of the example entity: mapping errors to statuses *)

Module handler.

(** What [mapDomainError] returns: Go's [error] holding an
    [*httpErrors.Error] or the error it was given. *)
Inductive error : Type :=
| Http (e : httperr.Error)
| Plain (e : usecase.error).

(** [Handler.mapDomainError].  The cases of the [switch] test for
    sentinels that differ from each other, and the [default] case tests
    for an [*AlreadyExistsError]. *)
Definition mapDomainError (err : usecase.error) : error :=
  match err with
  | usecase.FromRepository (inr example.ErrEntityNotFound) =>
      Http (httperr.NewNotFound "Entity not found" (Some err))
  | usecase.Invalid domain.ErrInvalidEntityID =>
      Http (httperr.NewBadRequest "Invalid entity ID" (Some err))
  | usecase.Invalid domain.ErrInvalidEmail =>
      Http (httperr.NewBadRequest "Invalid email format" (Some err))
  | usecase.Invalid domain.ErrInvalidName =>
      Http (httperr.NewBadRequest "Invalid name" (Some err))
  | usecase.Invalid domain.ErrReservedName =>
      Http (httperr.NewBadRequest "Name is reserved" (Some err))
  | usecase.FromRepository (inr (example.AlreadyExistsError _)) =>
      Http (httperr.NewConflict "Entity already exists" (Some err))
  | usecase.FromRepository (inl _) => Plain err
  end.

(** What [ErrorHandler] needs of the request, for its log entry. *)
Record Request : Type := mkRequest {
  Method : string;
  Path : string;
  RemoteAddr : string
}.

(** What [ErrorHandler] itself writes: the status and the text of the
    ["error"] member that [RespondError] sends, and what it logs. *)
Record Reply : Type := mkReply {
  code : Z;
  error_text : string;
  logged : list (logger.Entry error)
}.

(** [ErrorHandler(next)], once [next] has returned [err]: nothing more
    when [err] is nil, the status and text of an [*httpErrors.Error], and
    for any other error a log entry and the status 500. *)
Definition ErrorHandler (StatusText : Z → string) (req : Request)
    (err : option error) : option Reply :=
  match err with
  | None => None
  | Some (Http httpErr) =>
      Some (mkReply (httperr.StatusCode httpErr)
              (httperr.Error_text StatusText httpErr) [])
  | Some (Plain e) =>
      Some (mkReply httperr.StatusInternalServerError "internal server error"
              [logger.mkEntry logger.LevelError "Unexpected server error"
                 [logger.String "method" (Method req);
                  logger.String "path" (Path req);
                  logger.String "remote_addr" (RemoteAddr req);
                  logger.Error (Plain e)]])
  end.


End handler.

(** ** The readiness handler over the health manager *)

Module readiness.
Import health.

(** [type Status string] of the handlers' package. *)
Definition StatusPass : string := "pass".
Definition StatusFail : string := "fail".
Definition StatusWarn : string := "warn".

Record CheckDetail : Type := mkCheckDetail {
  ComponentId : string;
  ComponentType : string;
  DetailStatus : string;
  Time : Z;
  Output : string
}.

(** [ReadinessResponse], with the fields the handler sets. *)
Record ReadinessResponse : Type := mkReadinessResponse {
  Status : string;
  Version : string;
  Notes : list string;
  Checks : gmap string (list CheckDetail)
}.

(** The variables of the loop in [Check]. *)
Record Tally : Type := mkTally {
  overallStatus : string;
  checks : gmap string (list CheckDetail);
  notes : list string
}.

(** The three things the loop's body computes from an entry of the
    mapping: the detail's status, the detail, and the note of a failure. *)
Definition status_for (result : CheckResult) : string :=
  if decide (health.Status result = StatusHealthy) then StatusPass
  else if decide (health.Status result = StatusUnhealthy) then StatusFail
  else StatusWarn.

Definition detail_for (now : Z) (name : string) (result : CheckResult)
  : CheckDetail :=
  mkCheckDetail name "dependency" (status_for result) now
    (if decide (health.Error result ≠ "") then health.Error result
     else health.Message result).

Definition note_for (name : string) : string :=
  "Dependency " +:+ name +:+ " is unavailable".

(** One pass through the loop's body, for the entry [name, result] and
    the clock reading [now]. *)
Definition Check_step (now : Z) (acc : Tally) (entry : string * CheckResult)
  : Tally :=
  let '(name, result) := entry in
  let overall :=
    if decide (health.Status result = StatusHealthy) then overallStatus acc
    else if decide (health.Status result = StatusUnhealthy) then StatusFail
    else if decide (overallStatus acc = StatusPass) then StatusWarn
    else overallStatus acc in
  mkTally overall
    (<[name := [detail_for now name result]]> (checks acc))
    (if decide (status_for result = StatusFail)
     then notes acc ++ [note_for name]
     else notes acc).

(** What [Check] hands to [RespondJSON], and what it logs. *)
Record Answer : Type := mkAnswer {
  statusCode : Z;
  body : ReadinessResponse;
  warned : list (logger.Entry Empty_set)
}.

(** [ReadinessHandler.Check].  [ctx] is the context the handler derives
    from the request's; a panic of [CheckAll] is the handler's ([None]). *)
Definition Check {W : Type} `{!World W} (version : string) (ctx : Context)
    (pick : gmap string CheckResult → list (string * CheckResult))
    (m : Manager W) (s : Run W) : option Answer * Run W :=
  match CheckAll ctx m s with
  | (None, s1) => (None, s1)
  | (Some healthResults, s1) =>
      let final :=
        foldl (Check_step (Now (world s1))) (mkTally StatusPass ∅ [])
              (pick healthResults) in
      let readinessResponse :=
        mkReadinessResponse (overallStatus final) version (notes final)
          (checks final) in
      if decide (overallStatus final = StatusFail)
      then (Some (mkAnswer httperr.StatusServiceUnavailable readinessResponse
                    [logger.mkEntry logger.LevelWarn "Readiness check failed"
                       [logger.String "status" (overallStatus final)]]), s1)
      else (Some (mkAnswer httperr.StatusOK readinessResponse []), s1)
  end.

End readiness.

(** * Properties *)

(** ** Ranging over a map *)

Lemma map_range_canonical {V : Type} :
  map_range (map_to_list : gmap string V → list (string * V)).
Proof. intros m. reflexivity. Qed.

Lemma map_range_length {V : Type} (pick : gmap string V → _) (m : gmap string V) :
  map_range pick → length (pick m) = size m.
Proof.
  intros Hpick. rewrite (Permutation_length (Hpick m)).
  apply length_map_to_list.
Qed.

Lemma map_range_elem_of {V : Type} (pick : gmap string V → _) (m : gmap string V) k v :
  map_range pick → (k, v) ∈ pick m ↔ m !! k = Some v.
Proof.
  intros Hpick. rewrite (Hpick m). apply elem_of_map_to_list.
Qed.

Lemma map_range_empty {V : Type} (pick : gmap string V → _) :
  map_range pick → pick ∅ = [].
Proof.
  intros Hpick. apply Permutation_nil_r.
  rewrite (Hpick ∅). by rewrite map_to_list_empty.
Qed.

(** ** The repository *)

Section repository_spec.
Import memory.
Context {T : Type} `{!Entity T} `{!Inhabited T}.
Implicit Types (r : Repository T) (entity : T) (id : string) (ctx : Context).

Lemma Save_stored ctx entity r old :
  data r !! GetID entity = Some old →
  Save ctx entity r = (Some ErrAlreadyExists, r).
Proof. intros Hold. unfold Save. by rewrite Hold. Qed.

Lemma Save_fresh ctx entity r :
  data r !! GetID entity = None →
  Save ctx entity r = (None, mkRepository (<[GetID entity := entity]> (data r))).
Proof. intros Hnone. unfold Save. by rewrite Hnone. Qed.

Lemma GetByID_stored ctx id r entity :
  data r !! id = Some entity → GetByID ctx id r = ((entity, None), r).
Proof. intros Hsome. unfold GetByID. by rewrite Hsome. Qed.

Lemma GetByID_missing ctx id r :
  data r !! id = None → GetByID ctx id r = ((zero, Some ErrNotFound), r).
Proof. intros Hnone. unfold GetByID. by rewrite Hnone. Qed.

Lemma Delete_stored ctx id r old :
  data r !! id = Some old →
  Delete ctx id r = (None, mkRepository (delete id (data r))).
Proof. intros Hold. unfold Delete. by rewrite Hold. Qed.

Lemma List_loop_values (order : list (string * T)) :
  List_loop order = order.*2.
Proof.
  unfold List_loop.
  enough (∀ acc, foldl (λ entities kv, entities ++ [kv.2]) acc order
                 = acc ++ order.*2) as Hgen by apply (Hgen []).
  induction order as [|kv order IH]; intros acc; simpl.
  - by rewrite app_nil_r.
  - rewrite IH. by rewrite <- app_assoc.
Qed.

(** C1. [Save] fails with [ErrAlreadyExists] exactly when a record is
    stored under the record's identifier, and it fails in no other way;
    a failed [Save] leaves the store as it was, so the record stored
    before is still the one [GetByID] returns; when nothing is stored
    under the identifier, [Save] succeeds and [GetByID] of the identifier
    then returns the saved record. *)
Theorem Save_AlreadyExists_iff_stored ctx entity r :
  ((Save ctx entity r).1 = Some ErrAlreadyExists
     ↔ is_Some (data r !! GetID entity))
  ∧ ((Save ctx entity r).1 = None ∨ (Save ctx entity r).1 = Some ErrAlreadyExists)
  ∧ ((Save ctx entity r).1 = Some ErrAlreadyExists →
       (Save ctx entity r).2 = r
       ∧ ∀ ctx' id, GetByID ctx' id (Save ctx entity r).2 = GetByID ctx' id r)
  ∧ (data r !! GetID entity = None →
       (Save ctx entity r).1 = None
       ∧ ∀ ctx', GetByID ctx' (GetID entity) (Save ctx entity r).2
                 = ((entity, None), (Save ctx entity r).2)).
Proof.
  destruct (data r !! GetID entity) as [old|] eqn:Hlook.
  - rewrite (Save_stored ctx entity r old Hlook). simpl.
    repeat split; eauto. all: intros; congruence.
  - rewrite (Save_fresh ctx entity r Hlook). simpl.
    split; [split; [done | by intros [? ?]] |].
    split; [by left |]. split; [done |].
    intros _. split; [done |]. intros ctx'.
    apply GetByID_stored. simpl. apply lookup_insert_eq.
Qed.

(** C2. When no record is stored under an identifier, [GetByID] of it,
    [Update] of any record that has it, and [Delete] of it all fail with
    [ErrNotFound], and each leaves the store as it was: [Update] inserts
    nothing. *)
Theorem missing_id_NotFound ctx id r entity :
  data r !! id = None →
  (GetByID ctx id r).1.2 = Some ErrNotFound ∧ (GetByID ctx id r).2 = r
  ∧ (GetID entity = id → Update ctx entity r = (Some ErrNotFound, r))
  ∧ Delete ctx id r = (Some ErrNotFound, r).
Proof.
  intros Hnone. rewrite (GetByID_missing ctx id r Hnone). simpl.
  split; [done |]. split; [done |]. split.
  - intros <-. unfold Update. by rewrite Hnone.
  - unfold Delete. by rewrite Hnone.
Qed.

(** C3. When a record is stored under [id], [Delete] of [id] succeeds;
    afterwards [GetByID] of [id] fails with [ErrNotFound], [Count] is
    one less than it was, and under every other identifier the store
    holds what it held, as [GetByID] shows. *)
Theorem Delete_stored_frame ctx id r :
  is_Some (data r !! id) →
  let r' := (Delete ctx id r).2 in
  (Delete ctx id r).1 = None
  ∧ (∀ ctx', (GetByID ctx' id r').1.2 = Some ErrNotFound)
  ∧ (∀ ctx', (Count ctx' r').1 = (((Count ctx' r).1.1 - 1)%Z, None))
  ∧ (∀ id', id' ≠ id →
       data r' !! id' = data r !! id'
       ∧ ∀ ctx', (GetByID ctx' id' r').1 = (GetByID ctx' id' r).1).
Proof.
  intros [old Hold]. rewrite (Delete_stored ctx id r old Hold). simpl.
  split; [done |]. split; [| split].
  - intros ctx'. rewrite GetByID_missing; [done |]. simpl.
    apply lookup_delete_eq.
  - intros ctx'. unfold Count. simpl.
    rewrite map_size_delete_Some by eauto.
    assert (size (data r) ≠ 0) as Hpos.
    { intros Hz. apply map_size_empty_inv in Hz.
      rewrite Hz in Hold. by rewrite lookup_empty in Hold. }
    f_equal. lia.
  - intros id' Hne.
    assert (delete id (data r) !! id' = data r !! id') as Hframe
      by (by apply lookup_delete_ne).
    split; [done |]. intros ctx'. unfold GetByID. simpl.
    rewrite Hframe. by destruct (data r !! id').
Qed.

(** C4. [Count] returns the number of elements of the collection that
    [List] returns, whichever order the runtime ranges over the map in;
    neither returns an error, neither changes the store, and on the
    empty store [List] returns the empty collection. *)
Theorem Count_eq_length_List ctx pick r :
  map_range pick →
  (List ctx pick r).1.2 = None
  ∧ (Count ctx r).1.2 = None
  ∧ (Count ctx r).1.1 = Z.of_nat (length (List ctx pick r).1.1)
  ∧ (List ctx pick r).2 = r ∧ (Count ctx r).2 = r
  ∧ List ctx pick New = (([], None), New).
Proof.
  intros Hpick. unfold List, Count. simpl.
  rewrite !List_loop_values, length_fmap, (map_range_length pick _ Hpick).
  repeat split; try done.
  by rewrite (map_range_empty pick Hpick).
Qed.

(** C9. No operation of the store depends on its context: under any two
    contexts, cancelled or expired ones included, each of [Save],
    [GetByID], [Update], [Delete], [List] and [Count] returns the same
    result and leaves the same store. *)
Theorem context_irrelevant ctx1 ctx2 r entity id pick :
  Save ctx1 entity r = Save ctx2 entity r
  ∧ GetByID ctx1 id r = GetByID ctx2 id r
  ∧ Update ctx1 entity r = Update ctx2 entity r
  ∧ Delete ctx1 id r = Delete ctx2 id r
  ∧ List ctx1 pick r = List ctx2 pick r
  ∧ Count ctx1 r = Count ctx2 r.
Proof. by repeat split. Qed.

End repository_spec.

(** The theorems above at the suite's entities. *)

Lemma missing_id_NotFound_witness :
  memory.data memory.store_alice !! "u2" = None
  ∧ (memory.GetByID Canceled "u2" memory.store_alice).1.2 = Some memory.ErrNotFound
  ∧ (memory.GetByID Canceled "u2" memory.store_alice).2 = memory.store_alice
  ∧ (memory.GetID memory.bob = "u2" →
       memory.Update Canceled memory.bob memory.store_alice
       = (Some memory.ErrNotFound, memory.store_alice))
  ∧ memory.Delete Canceled "u2" memory.store_alice
    = (Some memory.ErrNotFound, memory.store_alice).
Proof.
  split; [reflexivity |].
  apply (missing_id_NotFound Canceled "u2" memory.store_alice memory.bob).
  reflexivity.
Defined.

Lemma Delete_stored_frame_witness :
  is_Some (memory.data memory.store_alice !! "u1")
  ∧ (memory.Delete Background "u1" memory.store_alice).1 = None
  ∧ (∀ ctx', (memory.GetByID ctx' "u1"
                (memory.Delete Background "u1" memory.store_alice).2).1.2
             = Some memory.ErrNotFound)
  ∧ (∀ ctx', (memory.Count ctx'
                (memory.Delete Background "u1" memory.store_alice).2).1
             = (((memory.Count ctx' memory.store_alice).1.1 - 1)%Z, None))
  ∧ (∀ id', id' ≠ "u1" →
       memory.data (memory.Delete Background "u1" memory.store_alice).2 !! id'
       = memory.data memory.store_alice !! id'
       ∧ ∀ ctx', (memory.GetByID ctx' id'
                    (memory.Delete Background "u1" memory.store_alice).2).1
                 = (memory.GetByID ctx' id' memory.store_alice).1).
Proof.
  split; [eexists; reflexivity |].
  apply (Delete_stored_frame Background "u1" memory.store_alice).
  eexists; reflexivity.
Defined.

Lemma Count_eq_length_List_witness :
  map_range (map_to_list : gmap string memory.TestEntity → _)
  ∧ (memory.List Background map_to_list memory.store_alice).1.2 = None
  ∧ (memory.Count Background memory.store_alice).1.2 = None
  ∧ (memory.Count Background memory.store_alice).1.1
    = Z.of_nat (length (memory.List Background map_to_list memory.store_alice).1.1)
  ∧ (memory.List Background map_to_list memory.store_alice).2 = memory.store_alice
  ∧ (memory.Count Background memory.store_alice).2 = memory.store_alice
  ∧ memory.List Background map_to_list (memory.New (T := memory.TestEntity))
    = (([], None), memory.New).
Proof.
  split; [intros m; reflexivity |].
  apply (Count_eq_length_List Background map_to_list memory.store_alice).
  intros m; reflexivity.
Defined.

(** The end-to-end scenario of the suite: save, save again under the same
    identifier, read back, delete, read again. *)
Example store_scenario :
  memory.Save Background memory.alice memory.New = (None, memory.store_alice)
  ∧ memory.Save Background memory.alice' memory.store_alice
    = (Some memory.ErrAlreadyExists, memory.store_alice)
  ∧ memory.GetByID Background "u1" memory.store_alice
    = ((memory.alice, None), memory.store_alice)
  ∧ memory.Delete Background "u1" memory.store_alice = (None, memory.New)
  ∧ memory.GetByID Background "u1" (memory.New (T := memory.TestEntity))
    = ((memory.zero, Some memory.ErrNotFound), memory.New).
Proof. repeat split; by vm_compute. Qed.

(** [TestContextTimeout]: a context past its deadline does not stop [Save]. *)
Example Save_expired_context :
  memory.Save DeadlineExceeded (memory.mkTestEntity "timeout-test" "Timeout Entity")
    memory.New
  = memory.Save Background (memory.mkTestEntity "timeout-test" "Timeout Entity")
      memory.New
  ∧ (memory.Save DeadlineExceeded
       (memory.mkTestEntity "timeout-test" "Timeout Entity") memory.New).1 = None.
Proof. split; reflexivity. Qed.

(** ** What the store's [ErrAlreadyExists] tells its caller *)

Section already_exists.
Import memory.

(** On the platform repository the error of a refused [Save] is the
    sentinel, with its fixed message, whatever the identifier was. *)
Lemma Save_error_is_sentinel {T : Type} `{!Entity T}
    ctx (entity : T) (r : Repository T) err :
  (Save ctx entity r).1 = Some err →
  err = ErrAlreadyExists ∧ Error err = "entity already exists".
Proof.
  unfold Save. destruct (data r !! GetID entity); simpl; [| done].
  by intros [= <-].
Qed.

(** C8, as stated, fails: no reading of the error value that the
    platform repository's [Save] returns yields the conflicting
    identifier, since the refusals of ["u1"] and of ["u2"] return the
    same value. *)
Lemma Save_error_hides_identifier :
  ¬ ∃ conflicting_id : error → string,
      ∀ ctx (entity : TestEntity) (r : Repository TestEntity) err,
        (Save ctx entity r).1 = Some err →
        conflicting_id err = GetID entity.
Proof.
  intros [conflicting_id Hreads].
  pose proof (Hreads Background alice store_alice ErrAlreadyExists eq_refl) as Ha.
  pose proof (Hreads Background bob store_bob ErrAlreadyExists eq_refl) as Hb.
  rewrite Ha in Hb. discriminate Hb.
Qed.

(** C8, amended.  The platform repository's [Save] reports a conflict by
    the sentinel [ErrAlreadyExists], one value for every identifier; the
    example adapter, which calls it, returns in its place an
    [AlreadyExistsError] whose [ID] is the entity's identifier, exactly
    when a record is stored under it, and leaves the store as it was. *)
Theorem adapter_Save_carries_identifier ctx (entity : example.Entity)
    (r : adapter.Repository) :
  ((Save ctx entity r).1 = Some ErrAlreadyExists
     ↔ is_Some (data r !! example.ID entity))
  ∧ (adapter.Save ctx entity r
       = (Some (inr (example.AlreadyExistsError (example.ID entity))), r)
     ↔ is_Some (data r !! example.ID entity))
  ∧ (∀ (e1 e2 : example.Entity) r1 r2 err1 err2,
       (Save ctx e1 r1).1 = Some err1 → (Save ctx e2 r2).1 = Some err2 →
       err1 = err2)
  ∧ (∀ id, (adapter.Save ctx entity r).1 = Some (inr (example.AlreadyExistsError id)) →
       id = example.ID entity).
Proof.
  unfold adapter.Save, Save.
  change (GetID entity) with (example.ID entity).
  destruct (data r !! example.ID entity) as [old|] eqn:Hlook; simpl.
  - repeat split; eauto.
    + intros e1 e2 r1 r2 err1 err2.
      destruct (data r1 !! GetID e1), (data r2 !! GetID e2); simpl; congruence.
    + by intros id [= <-].
  - split; [split; [done | by intros [? ?]] |].
    split; [split; [done | by intros [? ?]] |].
    split; [| done].
    intros e1 e2 r1 r2 err1 err2.
    destruct (data r1 !! GetID e1), (data r2 !! GetID e2); simpl; congruence.
Qed.

End already_exists.

(** ** The health manager *)

Section manager_spec.
Import health.
Context {W : Type} `{!World W}.
Implicit Types (ctx : Context) (s : Run W) (probe : Checker W)
  (probes : list (Checker W)) (results : gmap string CheckResult).

(** *** Registration *)

Lemma checkers_registered probes :
  checkers (registered probes) = Some <$> probes.
Proof.
  unfold registered.
  enough (∀ m, checkers (foldl (λ m probe, Register (Some probe) m) m probes)
               = checkers m ++ (Some <$> probes)) as Hgen by apply (Hgen NewManager).
  induction probes as [|probe probes IH]; intros m; simpl.
  - by rewrite app_nil_r.
  - rewrite IH. simpl. by rewrite <- app_assoc.
Qed.

Lemma registered_snoc probes probe :
  registered (probes ++ [probe]) = Register (Some probe) (registered probes).
Proof. unfold registered. by rewrite foldl_snoc. Qed.

(** *** The loop as a fold *)

Lemma round_cons ctx probe probes results s :
  round ctx (probe :: probes) results s
  = round ctx probes (<[Name probe := (timed_check probe ctx s).1]> results)
                     (timed_check probe ctx s).2.
Proof.
  unfold round. simpl. unfold iteration at 2. simpl.
  by destruct (timed_check probe ctx s).
Qed.

Lemma CheckAll_loop_round ctx probes results s :
  CheckAll_loop ctx (Some <$> probes) results s
  = (Some (round ctx probes results s).1, (round ctx probes results s).2).
Proof.
  revert results s. induction probes as [|probe probes IH]; intros results s.
  - done.
  - rewrite round_cons. simpl.
    destruct (timed_check probe ctx s) as [result s1]. apply IH.
Qed.

Lemma CheckAll_registered ctx probes s :
  CheckAll ctx (registered probes) s
  = (Some (round ctx probes ∅ s).1, (round ctx probes ∅ s).2).
Proof.
  unfold CheckAll. rewrite checkers_registered. apply CheckAll_loop_round.
Qed.

Lemma state_before_round ctx probes i s :
  state_before ctx probes i s = (round ctx (take i probes) ∅ s).2.
Proof. unfold state_before. by rewrite CheckAll_registered. Qed.

Lemma round_snoc ctx probes probe results s :
  round ctx (probes ++ [probe]) results s
  = iteration ctx (round ctx probes results s) probe.
Proof. unfold round. by rewrite foldl_snoc. Qed.

Lemma round_app ctx probes1 probes2 results s :
  round ctx (probes1 ++ probes2) results s
  = round ctx probes2 (round ctx probes1 results s).1
                      (round ctx probes1 results s).2.
Proof.
  unfold round. rewrite foldl_app.
  by destruct (foldl (iteration ctx) (results, s) probes1).
Qed.

Lemma iteration_fst ctx acc probe :
  (iteration ctx acc probe).1
  = <[Name probe := (timed_check probe ctx acc.2).1]> acc.1.
Proof. unfold iteration. by destruct (timed_check probe ctx acc.2). Qed.

Lemma iteration_snd ctx acc probe :
  (iteration ctx acc probe).2 = (timed_check probe ctx acc.2).2.
Proof. unfold iteration. by destruct (timed_check probe ctx acc.2). Qed.

Lemma timed_check_snd probe ctx s :
  (timed_check probe ctx s).2 = (call probe ctx s).2.
Proof. unfold timed_check. by destruct (call probe ctx s). Qed.

Lemma timed_check_fst probe ctx s :
  (timed_check probe ctx s).1
  = set_Latency (Since (Now (world s)) (Now (world (call probe ctx s).2)))
                (call probe ctx s).1.
Proof. unfold timed_check. by destruct (call probe ctx s). Qed.

Lemma call_invoked probe ctx s :
  invoked (call probe ctx s).2 = invoked s ++ [probe].
Proof. unfold call. by destruct (Check probe ctx (world s)). Qed.

(** *** What a round leaves behind *)

Lemma round_invoked ctx probes results s :
  invoked (round ctx probes results s).2 = invoked s ++ probes.
Proof.
  induction probes as [|probe probes IH] using rev_ind.
  - simpl. by rewrite app_nil_r.
  - rewrite round_snoc, iteration_snd, timed_check_snd, call_invoked, IH.
    by rewrite <- app_assoc.
Qed.

Lemma round_dom ctx probes results s :
  dom (round ctx probes results s).1
  = dom results ∪ list_to_set (Name <$> probes).
Proof.
  induction probes as [|probe probes IH] using rev_ind.
  - simpl. set_solver.
  - rewrite round_snoc, iteration_fst, dom_insert_L, IH.
    rewrite fmap_app, list_to_set_app_L. simpl. set_solver.
Qed.

Lemma round_lookup_other ctx probes results s name :
  (∀ probe, probe ∈ probes → Name probe ≠ name) →
  (round ctx probes results s).1 !! name = results !! name.
Proof.
  induction probes as [|probe probes IH] using rev_ind; intros Hother.
  - done.
  - rewrite round_snoc, iteration_fst, lookup_insert_ne.
    + apply IH. intros q Hq. apply Hother. set_solver.
    + apply Hother. set_solver.
Qed.

(** The entry under the name of the probe at index [i], once the loop
    has passed it, and at the end if no later probe bears the name. *)
Lemma round_lookup_at ctx probes s i probe :
  probes !! i = Some probe →
  (round ctx (take (S i) probes) ∅ s).1 !! Name probe
  = Some (timed_check probe ctx (state_before ctx probes i s)).1.
Proof.
  intros Hi. rewrite (take_S_r _ _ _ Hi), round_snoc, iteration_fst.
  rewrite lookup_insert_eq. by rewrite state_before_round.
Qed.

Lemma round_lookup_last ctx probes s i probe :
  probes !! i = Some probe → last_of_name probes i →
  (round ctx probes ∅ s).1 !! Name probe
  = Some (timed_check probe ctx (state_before ctx probes i s)).1.
Proof.
  intros Hi Hlast.
  rewrite <- (take_drop (S i) probes) at 1. rewrite round_app.
  rewrite round_lookup_other; [by apply round_lookup_at |].
  intros q [j Hj]%list_elem_of_lookup. rewrite lookup_drop in Hj.
  apply (Hlast (S i + j) probe q Hi Hj). lia.
Qed.




(** *** The loop of [IsHealthy] *)

Lemma IsHealthy_loop_true (order : list (string * CheckResult)) :
  IsHealthy_loop order = true
  ↔ ∀ name result, (name, result) ∈ order → Status result ≠ StatusUnhealthy.
Proof.
  induction order as [|[name0 result0] order IH]; simpl.
  - split; [| done]. intros _ name result Hin. by apply elem_of_nil in Hin.
  - destruct (decide (Status result0 = StatusUnhealthy)) as [Hbad|Hok].
    + split; [done |]. intros Hall. exfalso.
      apply (Hall name0 result0); [left | done].
    + rewrite IH. split.
      * intros Hall name result [[= -> ->]|Hin]%elem_of_cons; eauto.
      * intros Hall name result Hin. apply (Hall name). by right.
Qed.


(** *** The claims about [CheckAll] and [IsHealthy] *)

(** C5. [IsHealthy] returns true exactly when no result in the mapping
    that [CheckAll] produces has the unhealthy status, whichever order
    the runtime ranges over the mapping in; on a manager with no probe
    registered [CheckAll] returns the empty mapping and [IsHealthy]
    returns true. *)
Theorem IsHealthy_iff_no_unhealthy ctx pick probes s :
  map_range pick →
  (∃ results s' healthy,
     CheckAll ctx (registered probes) s = (Some results, s')
     ∧ IsHealthy ctx pick (registered probes) s = (Some healthy, s')
     ∧ (healthy = true
        ↔ ∀ name result, results !! name = Some result →
                         Status result ≠ StatusUnhealthy))
  ∧ CheckAll ctx NewManager s = (Some ∅, s)
  ∧ IsHealthy ctx pick NewManager s = (Some true, s).
Proof.
  intros Hpick. split.
  - exists (round ctx probes ∅ s).1, (round ctx probes ∅ s).2.
    exists (IsHealthy_loop (pick (round ctx probes ∅ s).1)).
    unfold IsHealthy. rewrite CheckAll_registered.
    split; [done |]. split; [done |].
    rewrite IsHealthy_loop_true. split.
    + intros Hall name result Hlook. apply (Hall name).
      by apply (map_range_elem_of pick).
    + intros Hall name result Hin. apply (Hall name).
      by apply (map_range_elem_of pick) in Hin.
  - unfold IsHealthy, CheckAll. simpl.
    by rewrite (map_range_empty pick Hpick).
Qed.



(** C10. The entry that [CheckAll] stores for a registered probe has the
    status, the message and the error text of the result the probe
    returned, and as latency the time the manager measured around the
    call, whatever latency the probe had set; it is the entry of the
    returned mapping when the probe is the last of its name. *)
Theorem CheckAll_entry_fields ctx probes s i probe :
  probes !! i = Some probe →
  let before := state_before ctx probes i s in
  let returned := (call probe ctx before).1 in
  let after := (call probe ctx before).2 in
  ∃ entry,
    (∃ stored, (CheckAll ctx (registered (take (S i) probes)) s).1 = Some stored
               ∧ stored !! Name probe = Some entry)
    ∧ Status entry = Status returned
    ∧ Message entry = Message returned
    ∧ Error entry = Error returned
    ∧ Latency entry = Since (Now (world before)) (Now (world after))
    ∧ (last_of_name probes i →
         ∃ results s', CheckAll ctx (registered probes) s = (Some results, s')
                       ∧ results !! Name probe = Some entry).
Proof.
  intros Hi before returned after.
  exists (timed_check probe ctx before).1. split.
  - rewrite CheckAll_registered. eexists. split; [done |].
    by apply round_lookup_at.
  - rewrite timed_check_fst. repeat split.
    intros Hlast. rewrite CheckAll_registered. do 2 eexists.
    split; [done |]. rewrite <- timed_check_fst.
    by apply round_lookup_last.
Qed.

End manager_spec.

(** *** The suite's scenarios *)

(** The probes ["db"] and ["cache"]: two entries, latencies as measured,
    not healthy. *)
Example health_scenario :
  health.CheckAll Background (health.registered [health.probe_db; health.probe_cache])
    health.at_1000
  = (Some (<["db" := health.mkCheckResult health.StatusHealthy "ok" 5 ""]>
            (<["cache" := health.mkCheckResult health.StatusUnhealthy "" 0 "timeout"]> ∅)),
     health.mkRun 1005%Z [health.probe_db; health.probe_cache])
  ∧ health.IsHealthy Background map_to_list
      (health.registered [health.probe_db; health.probe_cache]) health.at_1000
    = (Some false, health.mkRun 1005%Z [health.probe_db; health.probe_cache]).
Proof. split; by vm_compute. Qed.

(** Two probes named ["db"]: the entry is the second one's. *)
Example health_same_name :
  health.CheckAll Background (health.registered [health.probe_db; health.probe_db2])
    health.at_1000
  = (Some (<["db" := health.mkCheckResult health.StatusUnhealthy "down" 2 "refused"]> ∅),
     health.mkRun 1007%Z [health.probe_db; health.probe_db2]).
Proof. by vm_compute. Qed.

(** [MemoryChecker] under a cancelled context: reported as data. *)
Example health_memory_cancelled :
  health.CheckAll Canceled (health.registered [health.MemoryChecker]) health.at_1000
  = (Some (<["memory_storage" :=
              health.mkCheckResult health.StatusUnhealthy
                "memory storage check cancelled" 0 "context canceled"]> ∅),
     health.mkRun 1000%Z [health.MemoryChecker]).
Proof. by vm_compute. Qed.

(** A nil checker is accepted by [Register] and makes [CheckAll] panic,
    after the probes registered before it have run. *)
Example health_nil_checker :
  health.CheckAll Background
    (health.Register (Some health.probe_cache)
       (health.Register None (health.registered [health.probe_db])))
    health.at_1000
  = (None, health.mkRun 1005%Z [health.probe_db]).
Proof. by vm_compute. Qed.

Lemma IsHealthy_iff_no_unhealthy_witness :
  map_range (map_to_list : gmap string health.CheckResult → _)
  ∧ (∃ results s' healthy,
       health.CheckAll Background
         (health.registered [health.probe_db; health.probe_cache]) health.at_1000
       = (Some results, s')
       ∧ health.IsHealthy Background map_to_list
           (health.registered [health.probe_db; health.probe_cache]) health.at_1000
         = (Some healthy, s')
       ∧ (healthy = true
          ↔ ∀ name result, results !! name = Some result →
                           health.Status result ≠ health.StatusUnhealthy))
  ∧ health.CheckAll Background health.NewManager health.at_1000
    = (Some ∅, health.at_1000)
  ∧ health.IsHealthy Background map_to_list health.NewManager health.at_1000
    = (Some true, health.at_1000).
Proof.
  split; [intros m; reflexivity |].
  apply (IsHealthy_iff_no_unhealthy Background map_to_list
           [health.probe_db; health.probe_cache] health.at_1000).
  intros m; reflexivity.
Defined.

Lemma CheckAll_entry_fields_witness :
  [health.probe_db; health.probe_cache] !! 0 = Some health.probe_db
  ∧ ∃ entry,
      (∃ stored,
         (health.CheckAll Background
            (health.registered (take 1 [health.probe_db; health.probe_cache]))
            health.at_1000).1 = Some stored
         ∧ stored !! "db" = Some entry)
      ∧ health.Status entry = health.StatusHealthy
      ∧ health.Message entry = "ok"
      ∧ health.Error entry = ""
      ∧ health.Latency entry = 5%Z
      ∧ (health.last_of_name [health.probe_db; health.probe_cache] 0 →
           ∃ results s',
             health.CheckAll Background
               (health.registered [health.probe_db; health.probe_cache])
               health.at_1000
             = (Some results, s')
             ∧ results !! "db" = Some entry).
Proof.
  split; [reflexivity |].
  exact (CheckAll_entry_fields Background
           [health.probe_db; health.probe_cache] health.at_1000 0 health.probe_db
           eq_refl).
Defined.

(** * Further properties *)

(** ** The repository: how its operations compose *)

Section repository_more.
Import memory.
Context {T : Type} `{!Entity T} `{!Inhabited T}.
Implicit Types (r : Repository T) (entity : T) (id : string) (ctx : Context)
  (c : mutation T) (cs : list (mutation T)).

Lemma Repository_eta r : mkRepository (data r) = r.
Proof. by destruct r. Qed.

Lemma Update_stored ctx entity r old :
  data r !! GetID entity = Some old →
  Update ctx entity r = (None, mkRepository (<[GetID entity := entity]> (data r))).
Proof. intros Hold. unfold Update. by rewrite Hold. Qed.

Lemma Count_size ctx r : (Count ctx r).1.1 = Z.of_nat (size (data r)).
Proof. done. Qed.

Lemma GetByID_fst ctx id r :
  (GetByID ctx id r).1
  = match data r !! id with
    | Some entity => (entity, None)
    | None => (zero, Some ErrNotFound)
    end.
Proof. unfold GetByID. by destruct (data r !! id). Qed.

Lemma exec_all_snoc ctx cs c r :
  exec_all ctx (cs ++ [c]) r
  = ((exec_all ctx cs r).1 ++ [(exec ctx c (exec_all ctx cs r).2).1],
     (exec ctx c (exec_all ctx cs r).2).2).
Proof.
  unfold exec_all. rewrite foldl_snoc.
  by destruct (exec ctx c _).
Qed.

Lemma exec_all_length ctx cs r : length (exec_all ctx cs r).1 = length cs.
Proof.
  induction cs as [|c cs IH] using rev_ind; [done |].
  rewrite exec_all_snoc. simpl. rewrite !length_app, IH. done.
Qed.

Lemma exec_keyed ctx c r : keyed r → keyed (exec ctx c r).2.
Proof.
  intros Hkeyed id entity.
  destruct c as [e|e|id0]; simpl; unfold Save, Update, Delete.
  - destruct (data r !! GetID e) eqn:Hlook; simpl; [apply Hkeyed |].
    destruct (decide (GetID e = id)) as [<-|Hne].
    + rewrite lookup_insert_eq. by intros [= <-].
    + rewrite lookup_insert_ne by done. apply Hkeyed.
  - destruct (data r !! GetID e) eqn:Hlook; simpl; [| apply Hkeyed].
    destruct (decide (GetID e = id)) as [<-|Hne].
    + rewrite lookup_insert_eq. by intros [= <-].
    + rewrite lookup_insert_ne by done. apply Hkeyed.
  - destruct (data r !! id0) eqn:Hlook; simpl; [| apply Hkeyed].
    destruct (decide (id0 = id)) as [<-|Hne].
    + by rewrite lookup_delete_eq.
    + rewrite lookup_delete_ne by done. apply Hkeyed.
Qed.

Lemma exec_size ctx c r :
  Z.of_nat (size (data (exec ctx c r).2))
  = (Z.of_nat (size (data r))
     + (if saved c (exec ctx c r).1 then 1 else 0)
     - (if deleted c (exec ctx c r).1 then 1 else 0))%Z.
Proof.
  destruct c as [e|e|id0]; simpl; unfold Save, Update, Delete.
  - destruct (data r !! GetID e) eqn:Hlook; simpl; [lia |].
    rewrite map_size_insert_None by done. lia.
  - destruct (data r !! GetID e) eqn:Hlook; simpl; [| lia].
    rewrite map_size_insert_Some by eauto. lia.
  - destruct (data r !! id0) eqn:Hlook; simpl; [| lia].
    rewrite map_size_delete_Some by eauto.
    assert (size (data r) ≠ 0); [| lia].
    intros Hz. apply map_size_empty_inv in Hz.
    rewrite Hz in Hlook. by rewrite lookup_empty in Hlook.
Qed.

Lemma exec_all_keyed ctx cs : keyed (exec_all ctx cs (New (T := T))).2.
Proof.
  induction cs as [|c cs IH] using rev_ind.
  - intros id0 e. simpl. by rewrite lookup_empty.
  - rewrite exec_all_snoc. simpl. by apply exec_keyed.
Qed.

Lemma keyed_ids r (order : list (string * T)) :
  keyed r → (∀ kv, kv ∈ order → data r !! kv.1 = Some kv.2) →
  GetID <$> order.*2 = order.*1.
Proof.
  intros Hkeyed Hin. induction order as [|[k v] order IH]; [done |].
  simpl. f_equal.
  - apply Hkeyed. apply (Hin (k, v)). by left.
  - apply IH. intros kv Hkv. apply Hin. by right.
Qed.

Lemma tally_snoc bs b : tally (bs ++ [b]) = (tally bs + (if b then 1 else 0))%Z.
Proof.
  unfold tally. rewrite filter_app, length_app.
  destruct b; simpl; lia.
Qed.

(** X1. A [Save] under an identifier that is not stored succeeds, raises
    [Count] by exactly one, and leaves what is stored under every other
    identifier as it was. *)
Theorem Save_fresh_frame ctx entity r :
  data r !! GetID entity = None →
  (Save ctx entity r).1 = None
  ∧ (∀ ctx', (Count ctx' (Save ctx entity r).2).1.1
             = ((Count ctx' r).1.1 + 1)%Z)
  ∧ (∀ ctx' id, id ≠ GetID entity →
       (GetByID ctx' id (Save ctx entity r).2).1 = (GetByID ctx' id r).1).
Proof.
  intros Hnone. rewrite (Save_fresh ctx entity r Hnone). simpl.
  split; [done |]. split.
  - intros ctx'. unfold Count. simpl.
    rewrite map_size_insert_None by done. lia.
  - intros ctx' id Hne. rewrite !GetByID_fst. simpl.
    by rewrite lookup_insert_ne.
Qed.

(** X2. An [Update] under a stored identifier succeeds and replaces the
    record: [GetByID] then returns the new one, [Count] is what it was,
    and every other identifier keeps its record. *)
Theorem Update_stored_replaces ctx entity r :
  is_Some (data r !! GetID entity) →
  (Update ctx entity r).1 = None
  ∧ (∀ ctx', (GetByID ctx' (GetID entity) (Update ctx entity r).2).1
             = (entity, None))
  ∧ (∀ ctx', (Count ctx' (Update ctx entity r).2).1 = (Count ctx' r).1)
  ∧ (∀ ctx' id, id ≠ GetID entity →
       (GetByID ctx' id (Update ctx entity r).2).1 = (GetByID ctx' id r).1).
Proof.
  intros [old Hold]. rewrite (Update_stored ctx entity r old Hold). simpl.
  split; [done |]. split; [| split].
  - intros ctx'. rewrite GetByID_fst. simpl. by rewrite lookup_insert_eq.
  - intros ctx'. unfold Count. simpl.
    by rewrite map_size_insert_Some by eauto.
  - intros ctx' id Hne. rewrite !GetByID_fst. simpl.
    by rewrite lookup_insert_ne.
Qed.

(** X3. Whether it succeeds or fails, [Update] never changes which
    identifiers are stored: it creates no record and removes none. *)
Theorem Update_keeps_ids ctx entity r :
  dom (data (Update ctx entity r).2) = dom (data r)
  ∧ ∀ ctx', (Count ctx' (Update ctx entity r).2).1 = (Count ctx' r).1.
Proof.
  unfold Update, Count.
  destruct (data r !! GetID entity) as [old|] eqn:Hlook; simpl; [| done].
  split.
  - rewrite dom_insert_L. apply (elem_of_dom_2 (D := gset string)) in Hlook.
    set_solver.
  - intros _. by rewrite map_size_insert_Some by eauto.
Qed.

(** X4. In a repository reached from [New] by any sequence of [Save],
    [Update] and [Delete] calls, whatever their outcomes, every record is
    stored under its own identifier: what [GetByID] returns for [id] has
    the identifier [id]. *)
Theorem reachable_keyed ctx cs ctx' id entity :
  (GetByID ctx' id (exec_all ctx cs New).2).1 = (entity, None) →
  GetID entity = id.
Proof.
  pose proof (exec_all_keyed ctx cs) as Hkeyed.
  unfold GetByID. destruct (data _ !! id) as [e|] eqn:Hlook; simpl.
  - intros [= <-]. by apply Hkeyed.
  - done.
Qed.

(** X5. Over any sequence of [Save], [Update] and [Delete] calls on a new
    repository, [Count] at the end is the number of calls of [Save] that
    succeeded less the number of calls of [Delete] that succeeded. *)
Theorem Count_tallies ctx cs ctx' :
  (Count ctx' (exec_all ctx cs New).2).1.1
  = (tally (zip_with saved cs (exec_all ctx cs New).1)
     - tally (zip_with deleted cs (exec_all ctx cs New).1))%Z.
Proof.
  rewrite Count_size.
  induction cs as [|c cs IH] using rev_ind.
  - simpl. by rewrite map_size_empty.
  - rewrite exec_all_snoc. simpl.
    rewrite !zip_with_app by (by rewrite exec_all_length).
    simpl. rewrite !tally_snoc, exec_size, IH. lia.
Qed.

(** X6. On a repository reached from [New], in whichever order the
    runtime ranges over the map, [List] returns no two records with the
    same identifier, and a record is in the list exactly when [GetByID]
    of its identifier returns it. *)
Theorem List_reachable ctx cs ctx' pick :
  map_range pick →
  NoDup (GetID <$> (List ctx' pick (exec_all ctx cs New).2).1.1)
  ∧ ∀ entity,
      entity ∈ (List ctx' pick (exec_all ctx cs New).2).1.1
      ↔ (GetByID ctx' (GetID entity) (exec_all ctx cs New).2).1 = (entity, None).
Proof.
  intros Hpick. pose proof (exec_all_keyed ctx cs) as Hkeyed.
  set (r := (exec_all ctx cs New).2) in *.
  unfold List. simpl. rewrite List_loop_values. split.
  - rewrite (keyed_ids r); [| done |].
    + rewrite (Hpick (data r)). apply NoDup_fst_map_to_list.
    + intros [k v] Hkv. by apply (map_range_elem_of pick) in Hkv.
  - intros entity. rewrite GetByID_fst, list_elem_of_fmap. split.
    + intros [[k v] [-> Hkv]]. apply (map_range_elem_of pick) in Hkv; [| done].
      simpl. rewrite (Hkeyed k v Hkv). by rewrite Hkv.
    + destruct (data r !! GetID entity) as [e|] eqn:Hlook; [| done].
      intros [= ->]. exists (GetID entity, entity). split; [done |].
      by apply (map_range_elem_of pick).
Qed.

(** X7. Saving a record under an identifier that is not stored and then
    deleting that identifier gives back the repository as it was. *)
Theorem Save_Delete_restores ctx ctx' entity r :
  data r !! GetID entity = None →
  Delete ctx' (GetID entity) (Save ctx entity r).2 = (None, r).
Proof.
  intros Hnone. rewrite (Save_fresh ctx entity r Hnone). simpl.
  unfold Delete. simpl. rewrite lookup_insert_eq. simpl.
  by rewrite delete_insert_id, Repository_eta.
Qed.

(** X8. Of two [Save] calls with the same identifier, made one after the
    other on a repository that does not store it, the first succeeds, the
    second fails with [ErrAlreadyExists] and changes nothing, and the
    record stored is the first one. *)
Theorem Save_twice ctx ctx' entity1 entity2 r :
  data r !! GetID entity1 = None →
  GetID entity2 = GetID entity1 →
  (Save ctx entity1 r).1 = None
  ∧ Save ctx' entity2 (Save ctx entity1 r).2
    = (Some ErrAlreadyExists, (Save ctx entity1 r).2)
  ∧ ∀ ctx'', (GetByID ctx'' (GetID entity1) (Save ctx entity1 r).2).1
             = (entity1, None).
Proof.
  intros Hnone Hsame. rewrite (Save_fresh ctx entity1 r Hnone). simpl.
  split; [done |]. split.
  - apply (Save_stored _ _ _ entity1). simpl.
    rewrite Hsame. apply lookup_insert_eq.
  - intros ctx''. rewrite GetByID_fst. simpl. by rewrite lookup_insert_eq.
Qed.

(** X9. After [Delete] of an identifier, whether it succeeded or not, the
    identifier is not stored: [GetByID] of it and a second [Delete] of it
    both fail with [ErrNotFound], and the second [Delete] changes nothing. *)
Theorem Delete_twice ctx ctx' id r :
  (GetByID ctx' id (Delete ctx id r).2).1.2 = Some ErrNotFound
  ∧ Delete ctx' id (Delete ctx id r).2 = (Some ErrNotFound, (Delete ctx id r).2).
Proof.
  assert (data (Delete ctx id r).2 !! id = None) as Hgone.
  { unfold Delete. destruct (data r !! id) eqn:Hlook; simpl; [| done].
    apply lookup_delete_eq. }
  split.
  - by rewrite GetByID_fst, Hgone.
  - unfold Delete at 1. by rewrite Hgone.
Qed.

(** X10. Saving, one after the other, records whose identifiers differ
    from each other and from every stored one: every [Save] succeeds,
    [Count] grows by the number of records, and [GetByID] returns each of
    them. *)
Theorem save_each_distinct ctx entities r :
  NoDup (GetID <$> entities) →
  (∀ entity, entity ∈ entities → data r !! GetID entity = None) →
  (save_each ctx entities r).1 = replicate (length entities) None
  ∧ (∀ ctx', (Count ctx' (save_each ctx entities r).2).1.1
             = ((Count ctx' r).1.1 + Z.of_nat (length entities))%Z)
  ∧ (∀ ctx' entity, entity ∈ entities →
       (GetByID ctx' (GetID entity) (save_each ctx entities r).2).1
       = (entity, None))
  ∧ (∀ id, id ∉ GetID <$> entities →
       data (save_each ctx entities r).2 !! id = data r !! id).
Proof.
  unfold save_each.
  induction entities as [|entity entities IH] using rev_ind; intros Hdup Hfresh.
  - simpl. repeat split; try done.
    + intros ctx'. lia.
    + intros ctx' entity Hin. by apply elem_of_nil in Hin.
  - rewrite fmap_app in Hdup. simpl in Hdup.
    apply NoDup_app in Hdup as (Hdup & Hnotin & _).
    destruct IH as (IHerr & IHcount & IHget & IHother); [done | |].
    { intros e He. apply Hfresh. set_solver. }
    assert (GetID entity ∉ GetID <$> entities) as Hnew.
    { intros Hin. apply (Hnotin _ Hin). by left. }
    assert (data (exec_all ctx (CallSave <$> entities) r).2 !! GetID entity = None)
      as Hnone.
    { rewrite IHother by done. apply Hfresh. set_solver. }
    rewrite fmap_app.
    change (CallSave <$> [entity]) with [CallSave entity].
    rewrite exec_all_snoc. simpl.
    rewrite (Save_fresh ctx entity _ Hnone). simpl.
    split; [| split; [| split]].
    + rewrite IHerr, length_app. simpl.
      by rewrite Nat.add_1_r, replicate_S_end.
    + intros ctx'. specialize (IHcount ctx'). unfold Count in *. simpl in *.
      rewrite map_size_insert_None by done. rewrite length_app. simpl. lia.
    + intros ctx' e [He|He%list_elem_of_singleton]%elem_of_app.
      * rewrite GetByID_fst. simpl.
        rewrite lookup_insert_ne.
        -- specialize (IHget ctx' e He). by rewrite GetByID_fst in IHget.
        -- intros Heq. apply Hnew. rewrite Heq. by apply list_elem_of_fmap_2.
      * subst e. rewrite GetByID_fst. simpl. by rewrite lookup_insert_eq.
    + intros id Hid. rewrite fmap_app in Hid. simpl in Hid.
      rewrite lookup_insert_ne by set_solver.
      apply IHother. set_solver.
Qed.

End repository_more.

(** The theorems of this part at the suite's entities. *)

Example suite_calls_outcome :
  memory.exec_all Background memory.suite_calls memory.New
  = ([None; None; Some memory.ErrAlreadyExists; None; None; Some memory.ErrNotFound],
     (memory.Save Background memory.alice' memory.New).2).
Proof. by vm_compute. Qed.

Lemma Save_fresh_frame_witness :
  memory.data memory.store_alice !! memory.GetID memory.bob = None
  ∧ (memory.Save Background memory.bob memory.store_alice).1 = None
  ∧ (∀ ctx', (memory.Count ctx'
                (memory.Save Background memory.bob memory.store_alice).2).1.1
             = ((memory.Count ctx' memory.store_alice).1.1 + 1)%Z)
  ∧ (∀ ctx' id, id ≠ memory.GetID memory.bob →
       (memory.GetByID ctx' id
          (memory.Save Background memory.bob memory.store_alice).2).1
       = (memory.GetByID ctx' id memory.store_alice).1).
Proof.
  split; [reflexivity |].
  exact (Save_fresh_frame Background memory.bob memory.store_alice eq_refl).
Defined.

Lemma Update_stored_replaces_witness :
  is_Some (memory.data memory.store_alice !! memory.GetID memory.alice')
  ∧ (memory.Update Background memory.alice' memory.store_alice).1 = None
  ∧ (∀ ctx', (memory.GetByID ctx' (memory.GetID memory.alice')
                (memory.Update Background memory.alice' memory.store_alice).2).1
             = (memory.alice', None))
  ∧ (∀ ctx', (memory.Count ctx'
                (memory.Update Background memory.alice' memory.store_alice).2).1
             = (memory.Count ctx' memory.store_alice).1)
  ∧ (∀ ctx' id, id ≠ memory.GetID memory.alice' →
       (memory.GetByID ctx' id
          (memory.Update Background memory.alice' memory.store_alice).2).1
       = (memory.GetByID ctx' id memory.store_alice).1).
Proof.
  split; [eexists; reflexivity |].
  apply (Update_stored_replaces Background memory.alice' memory.store_alice).
  eexists; reflexivity.
Defined.

Lemma reachable_keyed_witness :
  (memory.GetByID Background "u1"
     (memory.exec_all Background memory.suite_calls memory.New).2).1
  = (memory.alice', None)
  ∧ memory.GetID memory.alice' = "u1".
Proof.
  split; [reflexivity |].
  exact (reachable_keyed Background memory.suite_calls Background "u1"
           memory.alice' eq_refl).
Defined.

Lemma List_reachable_witness :
  map_range (map_to_list : gmap string memory.TestEntity → _)
  ∧ NoDup (memory.GetID <$>
             (memory.List Background map_to_list
                (memory.exec_all Background memory.suite_calls memory.New).2).1.1)
  ∧ ∀ entity,
      entity ∈ (memory.List Background map_to_list
                  (memory.exec_all Background memory.suite_calls memory.New).2).1.1
      ↔ (memory.GetByID Background (memory.GetID entity)
           (memory.exec_all Background memory.suite_calls memory.New).2).1
        = (entity, None).
Proof.
  split; [intros m; reflexivity |].
  exact (List_reachable Background memory.suite_calls Background map_to_list
           (λ m, reflexivity _)).
Defined.

Lemma Save_Delete_restores_witness :
  memory.data memory.store_alice !! memory.GetID memory.bob = None
  ∧ memory.Delete Canceled (memory.GetID memory.bob)
      (memory.Save Background memory.bob memory.store_alice).2
    = (None, memory.store_alice).
Proof.
  split; [reflexivity |].
  exact (Save_Delete_restores Background Canceled memory.bob memory.store_alice
           eq_refl).
Defined.

Lemma Save_twice_witness :
  memory.data (memory.New (T := memory.TestEntity)) !! memory.GetID memory.alice = None
  ∧ memory.GetID memory.alice' = memory.GetID memory.alice
  ∧ (memory.Save Background memory.alice memory.New).1 = None
  ∧ memory.Save Background memory.alice'
      (memory.Save Background memory.alice memory.New).2
    = (Some memory.ErrAlreadyExists,
       (memory.Save Background memory.alice memory.New).2)
  ∧ ∀ ctx'', (memory.GetByID ctx'' (memory.GetID memory.alice)
                (memory.Save Background memory.alice memory.New).2).1
             = (memory.alice, None).
Proof.
  split; [reflexivity |]. split; [reflexivity |].
  exact (Save_twice Background Background memory.alice memory.alice' memory.New
           eq_refl eq_refl).
Defined.

Lemma save_each_distinct_witness :
  NoDup (memory.GetID <$> [memory.alice; memory.bob])
  ∧ (∀ entity, entity ∈ [memory.alice; memory.bob] →
       memory.data (memory.New (T := memory.TestEntity)) !! memory.GetID entity = None)
  ∧ (memory.save_each Background [memory.alice; memory.bob] memory.New).1
    = replicate (length [memory.alice; memory.bob]) None
  ∧ (∀ ctx', (memory.Count ctx'
                (memory.save_each Background [memory.alice; memory.bob] memory.New).2).1.1
             = ((memory.Count ctx' (memory.New (T := memory.TestEntity))).1.1
                + Z.of_nat (length [memory.alice; memory.bob]))%Z)
  ∧ (∀ ctx' entity, entity ∈ [memory.alice; memory.bob] →
       (memory.GetByID ctx' (memory.GetID entity)
          (memory.save_each Background [memory.alice; memory.bob] memory.New).2).1
       = (entity, None))
  ∧ (∀ id, id ∉ memory.GetID <$> [memory.alice; memory.bob] →
       memory.data
         (memory.save_each Background [memory.alice; memory.bob] memory.New).2 !! id
       = memory.data (memory.New (T := memory.TestEntity)) !! id).
Proof.
  split; [compute_done |].
  split; [intros entity _; apply lookup_empty |].
  apply (save_each_distinct Background [memory.alice; memory.bob] memory.New).
  - compute_done.
  - intros entity _. apply lookup_empty.
Defined.

(** ** Matching by derivatives is matching *)

Section regexp_spec.
Import Stdlib.Strings.Ascii regexp.
Implicit Types (r : regex) (s : list ascii) (c : ascii).

Lemma matches_Seq_inv r1 r2 s :
  matches (Seq r1 r2) s
  ↔ ∃ s1 s2, s = s1 ++ s2 ∧ matches r1 s1 ∧ matches r2 s2.
Proof.
  split.
  - inversion 1; subst; eauto.
  - intros (s1 & s2 & -> & H1 & H2). by constructor.
Qed.

Lemma matches_Alt_inv r1 r2 s :
  matches (Alt r1 r2) s ↔ matches r1 s ∨ matches r2 s.
Proof.
  split.
  - inversion 1; subst; eauto.
  - intros [H|H]; [by apply matches_Alt_l | by apply matches_Alt_r].
Qed.

Lemma nullable_matches r : nullable r = true ↔ matches r [].
Proof.
  induction r as [| |p|r1 IH1 r2 IH2|r1 IH1 r2 IH2|r IH]; simpl.
  - split; [done | inversion 1].
  - split; [constructor | done].
  - split; [done | inversion 1].
  - rewrite andb_true_iff, IH1, IH2. split.
    + intros [H1 H2]. by apply (matches_Seq r1 r2 [] []).
    + intros (s1 & s2 & Heq & H1 & H2)%matches_Seq_inv.
      symmetry in Heq. apply app_eq_nil in Heq as [-> ->]. done.
  - rewrite orb_true_iff, IH1, IH2. split.
    + intros [H|H]; [by apply matches_Alt_l | by apply matches_Alt_r].
    + inversion 1; subst; eauto.
  - split; [constructor | done].
Qed.

Lemma matches_Star_cons r c s :
  matches (Star r) (c :: s)
  ↔ ∃ s1 s2, s = s1 ++ s2 ∧ matches r (c :: s1) ∧ matches (Star r) s2.
Proof.
  split.
  - remember (Star r) as r' eqn:Hr. remember (c :: s) as t eqn:Ht.
    intros Hm. revert s Ht. induction Hm as [| | | | | |r0 s1 s2 H1 _ H2 IH2];
      intros s' Ht; try discriminate.
    injection Hr as ->.
    destruct s1 as [|c1 s1]; simpl in Ht.
    + by apply IH2.
    + injection Ht as -> <-. eauto.
  - intros (s1 & s2 & -> & H1 & H2).
    by apply (matches_Star_app r (c :: s1) s2).
Qed.

Lemma deriv_matches r c s : matches (deriv r c) s ↔ matches r (c :: s).
Proof.
  revert s.
  induction r as [| |p|r1 IH1 r2 IH2|r1 IH1 r2 IH2|r IH]; intros s; simpl.
  - split; inversion 1.
  - split; inversion 1.
  - destruct (p c) eqn:Hp.
    + split.
      * inversion 1; subst. by constructor.
      * inversion 1; subst. constructor.
    + split; [inversion 1 |]. inversion 1; subst. congruence.
  - assert (matches (Seq (deriv r1 c) r2) s
            ↔ ∃ s1 s2, s = s1 ++ s2 ∧ matches r1 (c :: s1) ∧ matches r2 s2)
      as Hfirst.
    { rewrite matches_Seq_inv. by setoid_rewrite IH1. }
    rewrite (matches_Seq_inv r1 r2 (c :: s)).
    destruct (nullable r1) eqn:Hnull.
    + rewrite matches_Alt_inv, Hfirst, IH2. split.
      * intros [(s1 & s2 & -> & H1 & H2)|H2].
        -- exists (c :: s1), s2. done.
        -- exists [], (c :: s). split; [done |]. split; [| done].
           by apply nullable_matches.
      * intros (s1 & s2 & Heq & H1 & H2). destruct s1 as [|c1 s1]; simpl in Heq.
        -- right. by rewrite Heq.
        -- injection Heq as -> ->. left. eauto.
    + rewrite Hfirst. split.
      * intros (s1 & s2 & -> & H1 & H2). exists (c :: s1), s2. done.
      * intros (s1 & s2 & Heq & H1 & H2). destruct s1 as [|c1 s1]; simpl in Heq.
        -- apply nullable_matches in H1. congruence.
        -- injection Heq as -> ->. eauto.
  - rewrite !matches_Alt_inv, IH1, IH2. done.
  - rewrite matches_Star_cons, matches_Seq_inv. by setoid_rewrite IH.
Qed.

Lemma matchb_matches r s : matchb r s = true ↔ matches r s.
Proof.
  revert r. induction s as [|c s IH]; intros r; simpl.
  - apply nullable_matches.
  - by rewrite IH, deriv_matches.
Qed.

Lemma matches_Class_inv p s :
  matches (Class p) s ↔ ∃ c, s = [c] ∧ p c = true.
Proof.
  split.
  - inversion 1; subst; eauto.
  - intros (c & -> & Hp). by constructor.
Qed.

Lemma matches_Star_Class p s :
  matches (Star (Class p)) s ↔ Forall (λ c, p c = true) s.
Proof.
  induction s as [|c s IH].
  - split; [constructor | constructor].
  - rewrite matches_Star_cons, Forall_cons. split.
    + intros (s1 & s2 & -> & H1 & H2).
      apply matches_Class_inv in H1 as (c' & [= <- ->] & Hp).
      split; [done |]. by apply IH.
    + intros [Hp Hall]. exists [], s. split; [done |].
      split; [by constructor | by apply IH].
Qed.

Lemma matches_Plus_Class p s :
  matches (Plus (Class p)) s ↔ s ≠ [] ∧ Forall (λ c, p c = true) s.
Proof.
  unfold Plus. rewrite matches_Seq_inv. split.
  - intros (s1 & s2 & -> & H1 & H2).
    apply matches_Class_inv in H1 as (c & -> & Hp).
    apply matches_Star_Class in H2. split; [done |]. by constructor.
  - intros [Hne Hall]. destruct s as [|c s]; [done |].
    apply Forall_cons in Hall as [Hp Hall].
    exists [c], s. split; [done |].
    split; [by constructor | by apply matches_Star_Class].
Qed.

Lemma matches_AtLeast2_Class p s :
  matches (AtLeast2 (Class p)) s ↔ 2 ≤ length s ∧ Forall (λ c, p c = true) s.
Proof.
  unfold AtLeast2. rewrite matches_Seq_inv. split.
  - intros (s1 & s2 & -> & H1 & H2).
    apply matches_Class_inv in H1 as (c & -> & Hp).
    apply matches_Plus_Class in H2 as [Hne Hall].
    split; [| by constructor].
    destruct s2; [done |]. simpl. lia.
  - intros [Hlen Hall]. destruct s as [|c s]; [simpl in Hlen; lia |].
    apply Forall_cons in Hall as [Hp Hall].
    exists [c], s. split; [done |]. split; [by constructor |].
    apply matches_Plus_Class. split; [| done].
    destruct s; [simpl in Hlen; lia | done].
Qed.

Lemma matches_is_char x s :
  matches (Class (is_char x)) s ↔ s = [x].
Proof.
  rewrite matches_Class_inv. unfold is_char. split.
  - intros (c & -> & Heq). apply Ascii.eqb_eq in Heq. by subst.
  - intros ->. exists x. split; [done |]. apply Ascii.eqb_refl.
Qed.

(** X11. [emailRegex] accepts exactly the strings of the form
    [local@domain.tld] in which [local] and [domain] are not empty and
    hold only characters of their classes, and [tld] is two or more
    letters. *)
Theorem emailRegex_accepts (email : string) :
  MatchString domain.emailRegex email = true
  ↔ ∃ local dom tld,
      String.list_ascii_of_string email
      = local ++ "@"%char :: dom ++ "."%char :: tld
      ∧ local ≠ [] ∧ Forall (λ c, local_char c = true) local
      ∧ dom ≠ [] ∧ Forall (λ c, domain_char c = true) dom
      ∧ 2 ≤ length tld ∧ Forall (λ c, letter c = true) tld.
Proof.
  unfold MatchString, domain.emailRegex. rewrite matchb_matches.
  set (s := String.list_ascii_of_string email). split.
  - intros (local & s1 & -> & Hlocal & H1)%matches_Seq_inv.
    apply matches_Seq_inv in H1 as (at_ & s2 & -> & Hat & H2).
    apply matches_Seq_inv in H2 as (dom & s3 & -> & Hdom & H3).
    apply matches_Seq_inv in H3 as (dot & tld & -> & Hdot & Htld).
    apply matches_is_char in Hat as ->. apply matches_is_char in Hdot as ->.
    apply matches_Plus_Class in Hlocal as [? ?].
    apply matches_Plus_Class in Hdom as [? ?].
    apply matches_AtLeast2_Class in Htld as [? ?].
    exists local, dom, tld. done.
  - intros (local & dom & tld & -> & ? & ? & ? & ? & ? & ?).
    apply matches_Seq; [by apply matches_Plus_Class |].
    apply (matches_Seq _ _ ["@"%char]); [by apply matches_is_char |].
    apply matches_Seq; [by apply matches_Plus_Class |].
    apply (matches_Seq _ _ ["."%char]); [by apply matches_is_char |].
    by apply matches_AtLeast2_Class.
Qed.

(** The table of [TestNewEntity]. *)
Example emailRegex_suite :
  MatchString domain.emailRegex "test@example.com" = true
  ∧ MatchString domain.emailRegex "invalid-email" = false
  ∧ MatchString domain.emailRegex "test@" = false
  ∧ MatchString domain.emailRegex "testexample.com" = false
  ∧ MatchString domain.emailRegex "a@b.c" = false
  ∧ MatchString domain.emailRegex "a.b+c@d-e.f.gh" = true.
Proof. repeat split; by vm_compute. Qed.

End regexp_spec.

(** ** The adapter and the use cases over it *)

Section usecase_spec.
Import memory.
Variable ToLower : string → string.
Implicit Types (ctx : Context) (r : adapter.Repository) (entity : example.Entity)
  (id email name : string) (st : usecase.State).

Lemma adapter_Save_stored ctx entity r old :
  data r !! example.ID entity = Some old →
  adapter.Save ctx entity r
  = (Some (inr (example.AlreadyExistsError (example.ID entity))), r).
Proof.
  intros Hold. unfold adapter.Save, Save.
  change (GetID entity) with (example.ID entity). by rewrite Hold.
Qed.

Lemma adapter_Save_fresh ctx entity r :
  data r !! example.ID entity = None →
  adapter.Save ctx entity r
  = (None, mkRepository (<[example.ID entity := entity]> (data r))).
Proof.
  intros Hnone. unfold adapter.Save, Save.
  change (GetID entity) with (example.ID entity). by rewrite Hnone.
Qed.

Lemma adapter_GetByID_stored ctx id r entity :
  data r !! id = Some entity →
  adapter.GetByID ctx id r = ((Some entity, None), r).
Proof. intros Hsome. unfold adapter.GetByID, GetByID. by rewrite Hsome. Qed.

Lemma adapter_GetByID_missing ctx id r :
  data r !! id = None →
  adapter.GetByID ctx id r = ((None, Some (inr example.ErrEntityNotFound)), r).
Proof. intros Hnone. unfold adapter.GetByID, GetByID. by rewrite Hnone. Qed.

(** X12. The adapter lets no error of the platform repository through:
    the only error of its [Save] is an [AlreadyExistsError] with the
    entity's identifier, the only error of its [GetByID] is
    [ErrEntityNotFound], returned with a nil entity, and [GetByID] never
    changes the repository. *)
Theorem adapter_errors_translated ctx entity id r :
  (∀ err, (adapter.Save ctx entity r).1 = Some err →
          err = inr (example.AlreadyExistsError (example.ID entity)))
  ∧ (∀ err, (adapter.GetByID ctx id r).1.2 = Some err →
            err = inr example.ErrEntityNotFound
            ∧ (adapter.GetByID ctx id r).1.1 = None)
  ∧ ((adapter.GetByID ctx id r).1.2 = None →
       ∃ found, (adapter.GetByID ctx id r).1.1 = Some found)
  ∧ (adapter.GetByID ctx id r).2 = r.
Proof.
  split; [| split; [| split]].
  - destruct (data r !! example.ID entity) as [old|] eqn:Hlook.
    + rewrite (adapter_Save_stored ctx entity r old Hlook). by intros err [= <-].
    + by rewrite (adapter_Save_fresh ctx entity r Hlook).
  - destruct (data r !! id) as [found|] eqn:Hlook.
    + by rewrite (adapter_GetByID_stored ctx id r found Hlook).
    + rewrite (adapter_GetByID_missing ctx id r Hlook). by intros err [= <-].
  - destruct (data r !! id) as [found|] eqn:Hlook.
    + rewrite (adapter_GetByID_stored ctx id r found Hlook). eauto.
    + by rewrite (adapter_GetByID_missing ctx id r Hlook).
  - destruct (data r !! id) as [found|] eqn:Hlook.
    + by rewrite (adapter_GetByID_stored ctx id r found Hlook).
    + by rewrite (adapter_GetByID_missing ctx id r Hlook).
Qed.

(** *** [NewEntity] and [CreateEntity] *)

Lemma NewEntity_inr id email name entity :
  domain.NewEntity id email name = inr entity
  ↔ id ≠ "" ∧ name ≠ ""
    ∧ regexp.MatchString domain.emailRegex email = true
    ∧ entity = example.mkEntity id email name.
Proof using Type.
  unfold domain.NewEntity.
  destruct (decide (id = "")) as [->|Hid].
  { split; [done | by intros (? & _)]. }
  destruct (decide (name = "")) as [->|Hname].
  { split; [done | by intros (_ & ? & _)]. }
  destruct (regexp.MatchString domain.emailRegex email); simpl.
  - split; [by intros [= <-] | by intros (_ & _ & _ & ->)].
  - split; [done | by intros (_ & _ & ? & _)].
Qed.

Lemma CreateEntity_repo_on_error id email name ctx st err :
  (usecase.CreateEntity ToLower ctx id email name st).1.2 = Some err →
  usecase.repo (usecase.CreateEntity ToLower ctx id email name st).2
  = usecase.repo st.
Proof.
  unfold usecase.CreateEntity.
  destruct (domain.NewEntity id email name) as [e|entity]; [done |].
  destruct (domain.CheckEntityForCreation ToLower entity); [done |]. simpl.
  destruct (data (usecase.repo st) !! example.ID entity) as [old|] eqn:Hlook.
  - by rewrite (adapter_Save_stored ctx entity _ old Hlook).
  - by rewrite (adapter_Save_fresh ctx entity _ Hlook).
Qed.



(** X14. The error of [CreateEntity] follows the order of its checks: an
    empty identifier, then an empty name, then a malformed email, then a
    reserved name, and only then an identifier already stored, reported
    as [AlreadyExistsError] with that identifier.  Whatever the error, no
    entity is returned and the repository is as it was. *)
Theorem CreateEntity_error_order id email name ctx st :
  (id = "" →
     (usecase.CreateEntity ToLower ctx id email name st).1
     = (None, Some (usecase.Invalid domain.ErrInvalidEntityID)))
  ∧ (id ≠ "" → name = "" →
     (usecase.CreateEntity ToLower ctx id email name st).1
     = (None, Some (usecase.Invalid domain.ErrInvalidName)))
  ∧ (id ≠ "" → name ≠ "" →
     regexp.MatchString domain.emailRegex email = false →
     (usecase.CreateEntity ToLower ctx id email name st).1
     = (None, Some (usecase.Invalid domain.ErrInvalidEmail)))
  ∧ (id ≠ "" → name ≠ "" →
     regexp.MatchString domain.emailRegex email = true →
     ToLower name = "admin" →
     (usecase.CreateEntity ToLower ctx id email name st).1
     = (None, Some (usecase.Invalid domain.ErrReservedName)))
  ∧ (id ≠ "" → name ≠ "" →
     regexp.MatchString domain.emailRegex email = true →
     ToLower name ≠ "admin" →
     is_Some (data (usecase.repo st) !! id) →
     (usecase.CreateEntity ToLower ctx id email name st).1
     = (None, Some (usecase.FromRepository
                      (inr (example.AlreadyExistsError id)))))
  ∧ (∀ err, (usecase.CreateEntity ToLower ctx id email name st).1.2 = Some err →
       (usecase.CreateEntity ToLower ctx id email name st).1.1 = None
       ∧ usecase.repo (usecase.CreateEntity ToLower ctx id email name st).2
         = usecase.repo st).
Proof.
  split; [| split; [| split; [| split; [| split]]]].
  - intros ->. done.
  - intros Hid ->. unfold usecase.CreateEntity, domain.NewEntity.
    by rewrite decide_False by done.
  - intros Hid Hname Hemail. unfold usecase.CreateEntity, domain.NewEntity.
    rewrite !decide_False by done. by rewrite Hemail.
  - intros Hid Hname Hemail Hadmin. unfold usecase.CreateEntity.
    assert (domain.NewEntity id email name = inr (example.mkEntity id email name))
      as -> by (by apply NewEntity_inr).
    unfold domain.CheckEntityForCreation. simpl. by rewrite decide_True.
  - intros Hid Hname Hemail Hadmin [old Hold]. unfold usecase.CreateEntity.
    assert (domain.NewEntity id email name = inr (example.mkEntity id email name))
      as -> by (by apply NewEntity_inr).
    unfold domain.CheckEntityForCreation. simpl.
    rewrite decide_False by done. simpl.
    by rewrite (adapter_Save_stored ctx (example.mkEntity id email name) _ old Hold).
  - intros err Herr.
    split; [| by apply (CreateEntity_repo_on_error _ _ _ _ _ err)].
    revert Herr. unfold usecase.CreateEntity.
    destruct (domain.NewEntity id email name) as [e|entity]; [done |].
    destruct (domain.CheckEntityForCreation ToLower entity); [done |]. simpl.
    by destruct (adapter.Save ctx entity (usecase.repo st)) as [[?|] ?].
Qed.

Lemma CreateEntity_repo_cases id email name ctx st :
  usecase.repo (usecase.CreateEntity ToLower ctx id email name st).2
  = usecase.repo st
  ∨ (usecase.admissible ToLower (example.mkEntity id email name)
     ∧ data (usecase.repo st) !! id = None
     ∧ usecase.repo (usecase.CreateEntity ToLower ctx id email name st).2
       = mkRepository (<[id := example.mkEntity id email name]>
                         (data (usecase.repo st)))).
Proof.
  destruct (usecase.CreateEntity ToLower ctx id email name st).1.2 as [err|] eqn:Herr.
  - left. by apply (CreateEntity_repo_on_error _ _ _ _ _ err).
  - right. revert Herr. unfold usecase.CreateEntity.
    destruct (domain.NewEntity id email name) as [e|entity] eqn:Hnew; [done |].
    apply NewEntity_inr in Hnew as (Hid & Hname & Hemail & ->).
    unfold domain.CheckEntityForCreation. simpl.
    destruct (decide (ToLower name = "admin")) as [|Hadmin]; [done |]. simpl.
    destruct (data (usecase.repo st) !! id) as [old|] eqn:Hlook.
    + by rewrite (adapter_Save_stored ctx (example.mkEntity id email name) _ old Hlook).
    + rewrite (adapter_Save_fresh ctx (example.mkEntity id email name) _ Hlook).
      done.
Qed.

Lemma create_each_snoc ctx requests id email name st :
  usecase.create_each ToLower ctx (requests ++ [(id, email, name)]) st
  = (usecase.CreateEntity ToLower ctx id email name
       (usecase.create_each ToLower ctx requests st)).2.
Proof. unfold usecase.create_each. by rewrite foldl_snoc. Qed.

(** X15. An entity that [CreateEntity] returned is the one [GetEntity]
    returns for its identifier afterwards, under any context. *)
Theorem CreateEntity_then_GetEntity id email name ctx st entity ctx' :
  (usecase.CreateEntity ToLower ctx id email name st).1 = (Some entity, None) →
  (usecase.GetEntity ctx' id
     (usecase.CreateEntity ToLower ctx id email name st).2).1
  = (Some entity, None).
Proof.
  intros Hok.
  assert (data (usecase.repo (usecase.CreateEntity ToLower ctx id email name st).2)
            !! id = Some entity) as Hstored.
  { destruct (CreateEntity_repo_cases id email name ctx st)
      as [Hsame|(_ & Hfresh & ->)].
    - exfalso. revert Hok Hsame. unfold usecase.CreateEntity.
      destruct (domain.NewEntity id email name) as [e|entity0] eqn:Hnew; [done |].
      apply NewEntity_inr in Hnew as (Hid & Hname & Hemail & ->).
      destruct (domain.CheckEntityForCreation ToLower _); [done |]. simpl.
      destruct (data (usecase.repo st) !! id) as [old|] eqn:Hlook.
      + by rewrite (adapter_Save_stored ctx (example.mkEntity id email name) _ old Hlook).
      + rewrite (adapter_Save_fresh ctx (example.mkEntity id email name) _ Hlook).
        simpl. intros _ Heq. apply (f_equal (λ r, data r !! id)) in Heq.
        simpl in Heq. rewrite lookup_insert_eq in Heq. congruence.
    - revert Hok. unfold usecase.CreateEntity.
      destruct (domain.NewEntity id email name) as [e|entity0] eqn:Hnew; [done |].
      apply NewEntity_inr in Hnew as (Hid & Hname & Hemail & ->).
      destruct (domain.CheckEntityForCreation ToLower _); [done |]. simpl.
      rewrite (adapter_Save_fresh ctx (example.mkEntity id email name) _ Hfresh).
      simpl. intros [= <-]. apply lookup_insert_eq. }
  unfold usecase.GetEntity. simpl.
  by rewrite (adapter_GetByID_stored ctx' id _ entity Hstored).
Qed.

(** X16. Whatever sequence of [CreateEntity] calls a service started on
    an empty repository has served, every entity in the repository sits
    under its own identifier, has a non-empty identifier and name, an
    email that matches [emailRegex] and a name that is not reserved, and
    has the fields of one of the calls. *)
Theorem create_each_admissible ctx requests id entity :
  data (usecase.repo (usecase.create_each ToLower ctx requests usecase.started))
    !! id = Some entity →
  example.ID entity = id
  ∧ usecase.admissible ToLower entity
  ∧ (example.ID entity, example.Email entity, example.Name entity) ∈ requests.
Proof.
  revert id entity.
  induction requests as [|[[id0 email0] name0] requests IH] using rev_ind;
    intros id entity.
  - simpl. by rewrite lookup_empty.
  - rewrite create_each_snoc.
    destruct (CreateEntity_repo_cases id0 email0 name0 ctx
                (usecase.create_each ToLower ctx requests usecase.started))
      as [->|(Hadm & Hfresh & ->)].
    + intros Hlook. destruct (IH id entity Hlook) as (? & ? & ?).
      split; [done |]. split; [done |]. set_solver.
    + simpl. destruct (decide (id0 = id)) as [<-|Hne].
      * rewrite lookup_insert_eq. intros [= <-]. simpl.
        split; [done |]. split; [done |]. set_solver.
      * rewrite lookup_insert_ne by done.
        intros Hlook. destruct (IH id entity Hlook) as (? & ? & ?).
        split; [done |]. split; [done |]. set_solver.
Qed.

(** X17. [CreateEntity] keeps what was logged and adds one debug entry,
    followed by one warning exactly when it returns a validation error;
    a refusal by the repository is not logged. *)
Theorem CreateEntity_logged id email name ctx st :
  usecase.logged (usecase.CreateEntity ToLower ctx id email name st).2
  = usecase.logged st
    ++ logger.mkEntry logger.LevelDebug "Creating entity"
         [logger.String "entity_id" id; logger.String "email" email]
    :: match (usecase.CreateEntity ToLower ctx id email name st).1.2 with
       | Some (usecase.Invalid err) =>
           [logger.mkEntry logger.LevelWarn
              (if decide (err = domain.ErrReservedName)
               then "Entity creation check failed"
               else "Invalid entity data provided")
              [logger.String "entity_id" id; logger.Error (usecase.Invalid err)]]
       | _ => []
       end.
Proof.
  unfold usecase.CreateEntity.
  destruct (domain.NewEntity id email name) as [e|entity] eqn:Hnew.
  - simpl. rewrite <- app_assoc. simpl. do 3 f_equal.
    assert (e ≠ domain.ErrReservedName) as Hne.
    { revert Hnew. unfold domain.NewEntity. repeat case_decide; try congruence.
      destruct (negb _); congruence. }
    by rewrite decide_False.
  - unfold domain.CheckEntityForCreation.
    destruct (decide (ToLower (example.Name entity) = "admin")).
    + simpl. by rewrite <- app_assoc.
    + simpl.
      by destruct (adapter.Save ctx entity (usecase.repo st)) as [[err|] r'].
Qed.

End usecase_spec.

(** ** From a use case's error to the reply *)

Section reply_spec.
Import memory.
Variable ToLower : string → string.
Variable StatusText : Z → string.
Implicit Types (ctx : Context) (id email name : string) (st : usecase.State)
  (req : handler.Request).


(** X19. [GetEntity] for an identifier that is not stored returns an
    error that [mapDomainError] and [ErrorHandler] turn into the status
    404 with the text ["Entity not found"], logging nothing; for a stored
    identifier it returns the entity and no error. *)
Theorem GetEntity_reply req ctx id st :
  (data (usecase.repo st) !! id = None →
     ∃ err, (usecase.GetEntity ctx id st).1 = (None, Some err)
            ∧ handler.ErrorHandler StatusText req
                (Some (handler.mapDomainError err))
              = Some (handler.mkReply 404 "Entity not found" []))
  ∧ (∀ entity, data (usecase.repo st) !! id = Some entity →
       (usecase.GetEntity ctx id st).1 = (Some entity, None)).
Proof.
  split.
  - intros Hnone. unfold usecase.GetEntity. simpl.
    rewrite (adapter_GetByID_missing ctx id _ Hnone). eauto.
  - intros entity Hsome. unfold usecase.GetEntity. simpl.
    by rewrite (adapter_GetByID_stored ctx id _ entity Hsome).
Qed.


End reply_spec.

(** ** The readiness handler *)

Section readiness_spec.
Import health readiness.
Context {W : Type} `{!World W}.
Implicit Types (ctx : Context) (s : Run W) (probes : list (Checker W))
  (results : gmap string CheckResult) (order : list (string * CheckResult))
  (acc : Tally) (now : Z).

Lemma status_for_Fail (result : CheckResult) :
  status_for result = StatusFail ↔ health.Status result = StatusUnhealthy.
Proof.
  unfold status_for, StatusPass, StatusFail, StatusWarn,
    StatusHealthy, StatusUnhealthy.
  repeat case_decide; split; intros Heq; try done; congruence.
Qed.

Lemma Check_fold_snoc now acc order entry :
  foldl (Check_step now) acc (order ++ [entry])
  = Check_step now (foldl (Check_step now) acc order) entry.
Proof. by rewrite foldl_snoc. Qed.

Lemma Check_fold_overall now acc order :
  overallStatus acc = StatusPass →
  (overallStatus (foldl (Check_step now) acc order) = StatusFail
   ∧ ∃ entry, entry ∈ order ∧ health.Status entry.2 = StatusUnhealthy)
  ∨ (overallStatus (foldl (Check_step now) acc order) = StatusWarn
     ∧ (∀ entry, entry ∈ order → health.Status entry.2 ≠ StatusUnhealthy)
     ∧ ∃ entry, entry ∈ order ∧ health.Status entry.2 ≠ StatusHealthy)
  ∨ (overallStatus (foldl (Check_step now) acc order) = StatusPass
     ∧ ∀ entry, entry ∈ order → health.Status entry.2 = StatusHealthy).
Proof.
  intros Hinit. induction order as [|[name result] order IH] using rev_ind.
  - right. right. split; [done |]. intros entry Hin. by apply elem_of_nil in Hin.
  - rewrite Check_fold_snoc. unfold Check_step at 1. simpl.
    destruct (decide (health.Status result = StatusHealthy)) as [Hh|Hnh].
    + destruct IH as [(Ho & e & He & Hbad)|[(Ho & Hnone & e & He & Hodd)|(Ho & Hall)]];
        rewrite Ho.
      * left. split; [done |]. exists e. split; [set_solver | done].
      * right. left. split; [done |]. split.
        -- intros e2 [Hin2 | ->%list_elem_of_singleton]%elem_of_app; [by apply Hnone |].
           simpl. by rewrite Hh.
        -- exists e. split; [set_solver | done].
      * right. right. split; [done |].
        intros e2 [Hin2 | ->%list_elem_of_singleton]%elem_of_app; [by apply Hall | done].
    + destruct (decide (health.Status result = StatusUnhealthy)) as [Hu|Hnu].
      * left. split; [done |]. exists (name, result). split; [set_solver | done].
      * destruct IH as [(Ho & e & He & Hbad)|[(Ho & Hnone & e & He & Hodd)|(Ho & Hall)]];
        rewrite Ho.
        -- left. split; [done |]. exists e. split; [set_solver | done].
        -- right. left. split; [done |]. split.
           ++ intros e2 [Hin2 | ->%list_elem_of_singleton]%elem_of_app;
                [by apply Hnone | done].
           ++ exists e. split; [set_solver | done].
        -- right. left. split; [done |]. split.
           ++ intros e2 [Hin2 | ->%list_elem_of_singleton]%elem_of_app; [| done].
              rewrite (Hall e2 Hin2). done.
           ++ exists (name, result). split; [set_solver | done].
Qed.



Lemma Check_fold_notes now acc order :
  notes (foldl (Check_step now) acc order)
  = notes acc
    ++ (note_for ∘ fst
        <$> filter (λ entry, health.Status entry.2 = StatusUnhealthy) order).
Proof.
  induction order as [|[name result] order IH] using rev_ind.
  - simpl. by rewrite app_nil_r.
  - rewrite Check_fold_snoc. unfold Check_step at 1. simpl.
    rewrite filter_app, fmap_app, app_assoc, <- IH.
    destruct (decide (status_for result = StatusFail)) as [Hf|Hnf].
    + apply status_for_Fail in Hf.
      by rewrite filter_cons_True, filter_nil by done.
    + rewrite status_for_Fail in Hnf.
      rewrite filter_cons_False, filter_nil by done. simpl.
      by rewrite app_nil_r.
Qed.


Lemma Check_registered version ctx pick probes s :
  Check version ctx pick (registered probes) s
  = (let results := (round ctx probes ∅ s).1 in
     let s1 := (round ctx probes ∅ s).2 in
     let final := foldl (Check_step (Now (world s1))) (mkTally StatusPass ∅ [])
                        (pick results) in
     let response := mkReadinessResponse (overallStatus final) version
                       (notes final) (checks final) in
     if decide (overallStatus final = StatusFail)
     then (Some (mkAnswer httperr.StatusServiceUnavailable response
                   [logger.mkEntry logger.LevelWarn "Readiness check failed"
                      [logger.String "status" (overallStatus final)]]), s1)
     else (Some (mkAnswer httperr.StatusOK response []), s1)).
Proof. unfold Check. by rewrite CheckAll_registered. Qed.

Lemma string_length_app (a t : string) :
  String.length (a +:+ t) = String.length a + String.length t.
Proof. induction a as [|c a IH]; simpl; [done | by rewrite IH]. Qed.

Lemma string_app_inj_r (t a b : string) : a +:+ t = b +:+ t → a = b.
Proof.
  revert b. induction a as [|c a IH]; intros [|c' b] Heq; simpl in Heq.
  - done.
  - apply (f_equal String.length) in Heq.
    rewrite ?string_length_app in Heq. simpl in Heq.
    rewrite ?string_length_app in Heq. lia.
  - apply (f_equal String.length) in Heq.
    rewrite ?string_length_app in Heq. simpl in Heq.
    rewrite ?string_length_app in Heq. lia.
  - injection Heq as -> Heq. f_equal. by apply IH.
Qed.

Lemma note_for_inj : Inj (=) (=) note_for.
Proof.
  intros a b Heq. unfold note_for in Heq.
  apply (inj (String.append "Dependency ")) in Heq.
  by apply string_app_inj_r in Heq.
Qed.

Lemma statuses_distinct :
  StatusPass ≠ StatusFail ∧ StatusWarn ≠ StatusFail ∧ StatusWarn ≠ StatusPass
  ∧ StatusHealthy ≠ StatusUnhealthy.
Proof. done. Qed.

(** X21. The readiness handler answers 503 exactly when some result of
    the round is unhealthy, and 200 otherwise, in whichever order it
    ranges over the results.  The body's status is ["fail"] with 503,
    ["pass"] when every result is healthy, and ["warn"] in between; the
    failure is logged once, and nothing is logged otherwise. *)
Theorem Check_status version ctx pick probes s :
  map_range pick →
  ∃ results s' answer,
    CheckAll ctx (registered probes) s = (Some results, s')
    ∧ Check version ctx pick (registered probes) s = (Some answer, s')
    ∧ (statusCode answer = 503%Z
       ↔ ∃ name result, results !! name = Some result
                        ∧ health.Status result = StatusUnhealthy)
    ∧ (statusCode answer = 200%Z ∨ statusCode answer = 503%Z)
    ∧ (readiness.Status (body answer) = StatusFail ↔ statusCode answer = 503%Z)
    ∧ (readiness.Status (body answer) = StatusPass
       ↔ ∀ name result, results !! name = Some result →
                        health.Status result = StatusHealthy)
    ∧ (readiness.Status (body answer) = StatusPass
       ∨ readiness.Status (body answer) = StatusWarn
       ∨ readiness.Status (body answer) = StatusFail)
    ∧ (warned answer ≠ [] ↔ statusCode answer = 503%Z)
    ∧ Version (body answer) = version.
Proof.
  intros Hpick. rewrite Check_registered, CheckAll_registered.
  set (results := (round ctx probes ∅ s).1).
  set (s1 := (round ctx probes ∅ s).2).
  simpl.
  set (final := foldl (Check_step (Now (world s1))) (mkTally StatusPass ∅ [])
                      (pick results)).
  destruct statuses_distinct as (Hpf & Hwf & Hwp & Hhu).
  assert (∀ name result,
            (name, result) ∈ pick results ↔ results !! name = Some result)
    as Hin_iff by (intros; by apply map_range_elem_of).
  destruct (Check_fold_overall (Now (world s1)) (mkTally StatusPass ∅ [])
              (pick results) eq_refl)
    as [(Ho & [k v] & Hin & Hbad)|[(Ho & Hnone & [k v] & Hin & Hodd)|(Ho & Hall)]];
    fold final in Ho; simpl in *.
  - rewrite decide_True by done.
    eexists results, s1, _. split; [done |]. split; [done |]. simpl.
    rewrite Ho. apply Hin_iff in Hin.
    split; [split; [eauto | done] |].
    split; [by right |].
    split; [done |].
    split; [split; [by intros ? | intros Hallh; specialize (Hallh k v Hin); congruence] |].
    split; [by right; right |].
    split; [done | done].
  - rewrite decide_False by (by rewrite Ho).
    eexists results, s1, _. split; [done |]. split; [done |]. simpl.
    rewrite Ho. apply Hin_iff in Hin.
    split; [split; [done |] |].
    { intros (name & result & Hlook & Hu). exfalso.
      apply Hin_iff in Hlook. by apply (Hnone (name, result)). }
    split; [by left |].
    split; [done |].
    split; [split; [by intros ? | intros Hallh; specialize (Hallh k v Hin); done] |].
    split; [by right; left |].
    split; [done | done].
  - rewrite decide_False by (by rewrite Ho).
    eexists results, s1, _. split; [done |]. split; [done |]. simpl.
    rewrite Ho.
    split; [split; [done |] |].
    { intros (name & result & Hlook & Hu). exfalso.
      apply Hin_iff in Hlook. specialize (Hall _ Hlook). simpl in Hall.
      congruence. }
    split; [by left |].
    split; [done |].
    split; [split; [| done] |].
    { intros _ name result Hlook. apply Hin_iff in Hlook. apply (Hall _ Hlook). }
    split; [by left |].
    split; [done | done].
Qed.

(** X22. The readiness handler and [IsHealthy] agree: over the same
    probes, started in the same state, the handler answers 200 exactly
    when [IsHealthy] returns true, whatever orders the two range over the
    results in. *)
Theorem Check_agrees_IsHealthy version ctx pick pick' probes s :
  map_range pick → map_range pick' →
  ∃ answer s',
    Check version ctx pick (registered probes) s = (Some answer, s')
    ∧ IsHealthy ctx pick' (registered probes) s
      = (Some (bool_decide (statusCode answer = 200%Z)), s').
Proof.
  intros Hpick Hpick'. unfold IsHealthy.
  rewrite Check_registered, CheckAll_registered.
  set (results := (round ctx probes ∅ s).1).
  set (s1 := (round ctx probes ∅ s).2).
  simpl.
  set (final := foldl (Check_step (Now (world s1))) (mkTally StatusPass ∅ [])
                      (pick results)).
  destruct statuses_distinct as (Hpf & Hwf & Hwp & Hhu).
  assert (∀ entry, entry ∈ pick' results ↔ entry ∈ pick results) as Hsame.
  { intros [k v]. by rewrite !map_range_elem_of. }
  destruct (Check_fold_overall (Now (world s1)) (mkTally StatusPass ∅ [])
              (pick results) eq_refl)
    as [(Ho & [k v] & Hin & Hbad)|[(Ho & Hnone & _)|(Ho & Hall)]];
    fold final in Ho; simpl in *.
  - rewrite decide_True by done. eexists _, s1. split; [done |]. simpl.
    do 2 f_equal. destruct (IsHealthy_loop (pick' results)) eqn:Hloop; [| done].
    exfalso. rewrite IsHealthy_loop_true in Hloop.
    apply (Hloop k v); [| done]. by apply Hsame.
  - rewrite decide_False by (by rewrite Ho). eexists _, s1. split; [done |].
    simpl. do 2 f_equal. apply IsHealthy_loop_true.
    intros name result Hin%Hsame. apply (Hnone _ Hin).
  - rewrite decide_False by (by rewrite Ho). eexists _, s1. split; [done |].
    simpl. do 2 f_equal. apply IsHealthy_loop_true.
    intros name result Hin%Hsame. specialize (Hall _ Hin). simpl in Hall.
    congruence.
Qed.


(** X24. The notes of the readiness answer name the unhealthy results
    and nothing else: they are, in some order, the notes
    ["Dependency <name> is unavailable"] of the names whose result is
    unhealthy, one each. *)
Theorem Check_notes version ctx pick probes s :
  map_range pick →
  ∃ results s' answer,
    CheckAll ctx (registered probes) s = (Some results, s')
    ∧ Check version ctx pick (registered probes) s = (Some answer, s')
    ∧ Notes (body answer)
      ≡ₚ (note_for ∘ fst
          <$> filter (λ entry, health.Status entry.2 = StatusUnhealthy)
                     (map_to_list results))
    ∧ (∀ name, note_for name ∈ Notes (body answer)
               ↔ ∃ result, results !! name = Some result
                           ∧ health.Status result = StatusUnhealthy).
Proof.
  intros Hpick. rewrite Check_registered, CheckAll_registered.
  set (results := (round ctx probes ∅ s).1).
  set (s1 := (round ctx probes ∅ s).2).
  simpl.
  set (final := foldl (Check_step (Now (world s1))) (mkTally StatusPass ∅ [])
                      (pick results)).
  assert (notes final
          = (note_for ∘ fst
             <$> filter (λ entry, health.Status entry.2 = StatusUnhealthy)
                        (pick results))) as Hnotes.
  { unfold final. by rewrite Check_fold_notes. }
  pose proof note_for_inj as Hinj.
  exists results, s1.
  destruct (decide (overallStatus final = StatusFail));
    (eexists; split; [done |]; split; [done |]; simpl; rewrite Hnotes; split;
     [by rewrite (Hpick results) |]).
  all: intros name; rewrite list_elem_of_fmap; split.
  all: try (intros ([k v] & Heq & [Hbad Hin]%list_elem_of_filter);
            simpl in Heq; apply Hinj in Heq as <-;
            apply (map_range_elem_of pick) in Hin; [| done]; eauto).
  all: intros (result & Hlook & Hbad); exists (name, result);
       split; [done |]; apply list_elem_of_filter; split; [done |];
       by apply (map_range_elem_of pick).
Qed.

End readiness_spec.

(** ** The health manager: nil checkers, hidden probes, latencies *)

Section manager_more.
Import health.
Context {W : Type} `{!World W}.
Implicit Types (ctx : Context) (s : Run W) (probe : Checker W)
  (probes : list (Checker W)) (results : gmap string CheckResult)
  (cs : list (option (Checker W))).

Lemma CheckAll_loop_None ctx cs results s :
  (CheckAll_loop ctx cs results s).1 = None ↔ None ∈ cs.
Proof.
  revert results s. induction cs as [|[probe|] cs IH]; intros results s; simpl.
  - split; [done |]. intros Hin. by apply elem_of_nil in Hin.
  - destruct (timed_check probe ctx s) as [result s1]. rewrite IH.
    split; [by right |]. by intros [?|?]%elem_of_cons.
  - split; [by left | done].
Qed.

Lemma CheckAll_loop_nil_after ctx probes cs results s :
  CheckAll_loop ctx ((Some <$> probes) ++ None :: cs) results s
  = (None, (round ctx probes results s).2).
Proof.
  revert results s. induction probes as [|probe probes IH]; intros results s.
  - done.
  - rewrite round_cons. simpl.
    destruct (timed_check probe ctx s) as [result s1]. apply IH.
Qed.

Lemma last_of_name_exists probes name :
  name ∈ Name <$> probes →
  ∃ i probe, probes !! i = Some probe ∧ Name probe = name
             ∧ last_of_name probes i.
Proof.
  induction probes as [|p probes IH] using rev_ind; intros Hin.
  - by apply elem_of_nil in Hin.
  - destruct (decide (Name p = name)) as [Heq|Hne].
    + exists (length probes), p. split; [by apply list_lookup_middle |].
      split; [done |]. intros j p0 q _ Hj Hlt.
      apply lookup_lt_Some in Hj. rewrite length_app in Hj. simpl in Hj. lia.
    + rewrite fmap_app in Hin. simpl in Hin.
      apply elem_of_app in Hin as [Hin|Hin%list_elem_of_singleton]; [| done].
      destruct (IH Hin) as (i & probe & Hi & Hname & Hlast).
      exists i, probe. split; [by apply lookup_app_l_Some |].
      split; [done |]. intros j p0 q Hi' Hj Hlt.
      rewrite (lookup_app_l_Some _ _ _ _ Hi) in Hi'. injection Hi' as <-.
      destruct (decide (j < length probes)) as [Hj'|Hj'].
      * rewrite lookup_app_l in Hj by done. by apply (Hlast j probe q).
      * rewrite lookup_app_r in Hj by lia.
        destruct (j - length probes) as [|n]; simpl in Hj; [| done].
        injection Hj as <-. congruence.
Qed.

Lemma round_entry_origin ctx probes s name entry :
  (round ctx probes ∅ s).1 !! name = Some entry →
  ∃ i probe, probes !! i = Some probe ∧ Name probe = name
             ∧ last_of_name probes i
             ∧ entry = (timed_check probe ctx (state_before ctx probes i s)).1.
Proof.
  intros Hlook.
  assert (name ∈ dom (round ctx probes ∅ s).1) as Hdom by (by apply elem_of_dom_2 in Hlook).
  rewrite round_dom, dom_empty_L, (left_id_L ∅ (∪)) in Hdom.
  apply elem_of_list_to_set in Hdom.
  destruct (last_of_name_exists probes name Hdom) as (i & probe & Hi & Hname & Hlast).
  exists i, probe. split; [done |]. split; [done |]. split; [done |].
  pose proof (round_lookup_last ctx probes s i probe Hi Hlast) as Hentry.
  rewrite Hname in Hentry. congruence.
Qed.

Lemma Since_bounds (start now : Z) :
  (minDuration ≤ Since start now ≤ maxDuration)%Z
  ∧ ((start ≤ now)%Z → (0 ≤ Since start now)%Z).
Proof.
  unfold Since, minDuration, maxDuration.
  destruct (Z.ltb_spec (now - start) (- 2 ^ 63)); [lia |].
  destruct (Z.ltb_spec (2 ^ 63 - 1) (now - start)); lia.
Qed.

(** X25. [Register] accepts a nil checker, and [CheckAll] then panics:
    it returns no mapping exactly when some registered checker is nil,
    having called the probes registered before the first nil one, as a
    round over them alone would, and none after it. *)
Theorem CheckAll_nil_checker ctx (m : Manager W) s :
  ((CheckAll ctx m s).1 = None ↔ None ∈ checkers m)
  ∧ (None ∈ checkers (Register None m))
  ∧ ∀ probes cs, checkers m = (Some <$> probes) ++ None :: cs →
      CheckAll ctx m s = (None, (CheckAll ctx (registered probes) s).2)
      ∧ invoked (CheckAll ctx m s).2 = invoked s ++ probes.
Proof.
  split; [apply CheckAll_loop_None |]. split; [simpl; set_solver |].
  intros probes cs Hcs. unfold CheckAll at 1 3. rewrite Hcs.
  rewrite CheckAll_loop_nil_after, CheckAll_registered. simpl.
  split; [done |]. apply round_invoked.
Qed.

(** X26. Only the probe registered last under a name counts for
    [IsHealthy]: it returns true exactly when no such probe returned the
    unhealthy status, so an unhealthy probe followed by a probe of the
    same name does not make the manager unhealthy. *)
Theorem IsHealthy_last_of_name ctx pick probes s :
  map_range pick →
  ∃ healthy s',
    IsHealthy ctx pick (registered probes) s = (Some healthy, s')
    ∧ (healthy = true
       ↔ ∀ i probe, probes !! i = Some probe → last_of_name probes i →
           health.Status (call probe ctx (state_before ctx probes i s)).1
           ≠ StatusUnhealthy).
Proof.
  intros Hpick. unfold IsHealthy. rewrite CheckAll_registered.
  eexists _, _. split; [done |].
  rewrite IsHealthy_loop_true. split.
  - intros Hall i probe Hi Hlast.
    pose proof (round_lookup_last ctx probes s i probe Hi Hlast) as Hentry.
    apply (map_range_elem_of pick) in Hentry; [| done].
    apply Hall in Hentry. by rewrite timed_check_fst in Hentry.
  - intros Hall name entry Hin.
    apply (map_range_elem_of pick) in Hin; [| done].
    apply round_entry_origin in Hin as (i & probe & Hi & _ & Hlast & ->).
    rewrite timed_check_fst. simpl. by apply Hall.
Qed.

(** X27. Every latency in the mapping of [CheckAll] is within the range
    of a [time.Duration], and when no registered probe sets the clock
    back, every latency is at least zero. *)
Theorem CheckAll_latency ctx probes s results name entry :
  (CheckAll ctx (registered probes) s).1 = Some results →
  results !! name = Some entry →
  (minDuration ≤ Latency entry ≤ maxDuration)%Z
  ∧ ((∀ probe ctx' w, probe ∈ probes →
        (Now w ≤ Now (Check probe ctx' w).2)%Z) →
     (0 ≤ Latency entry)%Z).
Proof.
  intros Hres Hlook.
  rewrite CheckAll_registered in Hres. injection Hres as <-.
  apply round_entry_origin in Hlook as (i & probe & Hi & _ & _ & ->).
  rewrite timed_check_fst. simpl. split; [apply Since_bounds |].
  intros Hmono. apply Since_bounds. unfold call.
  specialize (Hmono probe ctx (world (state_before ctx probes i s))).
  destruct (Check probe ctx (world (state_before ctx probes i s))) as [r w].
  simpl in *. apply Hmono. by apply list_elem_of_lookup_2 in Hi.
Qed.

(** X28. Registering one more probe adds to the next round's mapping the
    entry of that probe, measured in the state the earlier probes leave,
    and changes no entry of another name: the earlier probes run as they
    did without it. *)
Theorem Register_then_CheckAll ctx probes probe s :
  ∃ before after s',
    CheckAll ctx (registered probes) s = (Some before, s')
    ∧ (CheckAll ctx (Register (Some probe) (registered probes)) s).1 = Some after
    ∧ after !! Name probe = Some (timed_check probe ctx s').1
    ∧ (∀ name, name ≠ Name probe → after !! name = before !! name)
    ∧ invoked (CheckAll ctx (Register (Some probe) (registered probes)) s).2
      = invoked s' ++ [probe].
Proof.
  rewrite <- registered_snoc, !CheckAll_registered, round_snoc. simpl.
  eexists _, _, _. split; [done |].
  rewrite iteration_fst, iteration_snd, timed_check_snd, call_invoked.
  split; [done |]. split; [by rewrite lookup_insert_eq |]. split; [| done].
  intros name Hne. by rewrite lookup_insert_ne.
Qed.



End manager_more.

(** The theorems of this part at the suites' data. *)

Lemma CreateEntity_then_GetEntity_witness :
  ((usecase.CreateEntity domain.ascii_ToLower Background "u1"
      "alice@example.com" "Alice" usecase.started).1
   = (Some usecase.alice, None))
  ∧ ((usecase.GetEntity Canceled "u1"
     (usecase.CreateEntity domain.ascii_ToLower Background "u1"
        "alice@example.com" "Alice" usecase.started).2).1 =
  (Some usecase.alice, None)).
Proof.
  split; [reflexivity |].
  exact (CreateEntity_then_GetEntity domain.ascii_ToLower "u1"
           "alice@example.com" "Alice" Background usecase.started
           usecase.alice Canceled
           (eq_refl)).
Defined.

Lemma create_each_admissible_witness :
  (memory.data (usecase.repo (usecase.create_each domain.ascii_ToLower Background
                              usecase.suite_requests usecase.started)) !! "u1"
   = Some usecase.alice)
  ∧ (example.ID usecase.alice = "u1"
  ∧ usecase.admissible domain.ascii_ToLower usecase.alice
    ∧ (example.ID usecase.alice, example.Email usecase.alice,
       example.Name usecase.alice)
      ∈ usecase.suite_requests).
Proof.
  split; [reflexivity |].
  exact (create_each_admissible domain.ascii_ToLower Background
           usecase.suite_requests "u1" usecase.alice
           (eq_refl)).
Defined.


Lemma Check_status_witness :
  (map_range (map_to_list : gmap string health.CheckResult → _))
  ∧ (∃ (results : gmap string health.CheckResult) 
    (s' : health.Run Z) (answer : readiness.Answer),
    health.CheckAll Background
      (health.registered [health.probe_db; health.probe_cache])
      health.at_1000 =
    (Some results, s')
    ∧ readiness.Check "dev" Background map_to_list
        (health.registered [health.probe_db; health.probe_cache])
        health.at_1000 =
      (Some answer, s')
      ∧ (readiness.statusCode answer = 503%Z
         ↔ ∃ (name : string) (result : health.CheckResult),
             results !! name = Some result
             ∧ health.Status result = health.StatusUnhealthy)
        ∧ (readiness.statusCode answer = 200%Z
           ∨ readiness.statusCode answer = 503%Z)
          ∧ (readiness.Status (readiness.body answer) =
             readiness.StatusFail ↔ readiness.statusCode answer = 503%Z)
            ∧ (readiness.Status (readiness.body answer) =
               readiness.StatusPass
               ↔ ∀ (name : string) (result : health.CheckResult),
                   results !! name = Some result
                   → health.Status result = health.StatusHealthy)
              ∧ (readiness.Status (readiness.body answer) =
                 readiness.StatusPass
                 ∨ readiness.Status (readiness.body answer) =
                   readiness.StatusWarn
                   ∨ readiness.Status (readiness.body answer) =
                     readiness.StatusFail)
                ∧ (readiness.warned answer ≠ []
                   ↔ readiness.statusCode answer = 503%Z)
                  ∧ readiness.Version (readiness.body answer) = "dev").
Proof.
  split; [intros m; reflexivity |].
  exact (Check_status "dev" Background map_to_list
           [health.probe_db; health.probe_cache] health.at_1000
           ((λ m : gmap string health.CheckResult, reflexivity (map_to_list m)))).
Defined.

Lemma Check_agrees_IsHealthy_witness :
  (map_range (map_to_list : gmap string health.CheckResult → _))
  ∧ (map_range (map_to_list : gmap string health.CheckResult → _))
  ∧ (∃ (answer : readiness.Answer) (s' : health.Run Z),
    readiness.Check "dev" Background map_to_list
      (health.registered [health.probe_db; health.probe_cache])
      health.at_1000 =
    (Some answer, s')
    ∧ health.IsHealthy Background map_to_list
        (health.registered [health.probe_db; health.probe_cache])
        health.at_1000 =
      (Some (bool_decide (readiness.statusCode answer = 200%Z)), s')).
Proof.
  split; [intros m; reflexivity |].
  split; [intros m; reflexivity |].
  exact (Check_agrees_IsHealthy "dev" Background map_to_list map_to_list
           [health.probe_db; health.probe_cache] health.at_1000
           ((λ m : gmap string health.CheckResult, reflexivity (map_to_list m))) ((λ m : gmap string health.CheckResult, reflexivity (map_to_list m)))).
Defined.


Lemma Check_notes_witness :
  (map_range (map_to_list : gmap string health.CheckResult → _))
  ∧ (∃ (results : gmap string health.CheckResult) 
    (s' : health.Run Z) (answer : readiness.Answer),
    health.CheckAll Background
      (health.registered [health.probe_db; health.probe_cache])
      health.at_1000 =
    (Some results, s')
    ∧ readiness.Check "dev" Background map_to_list
        (health.registered [health.probe_db; health.probe_cache])
        health.at_1000 =
      (Some answer, s')
      ∧ readiness.Notes (readiness.body answer)
        ≡ₚ readiness.note_for ∘ fst <$>
           filter
             (λ entry : string * health.CheckResult,
                health.Status entry.2 = health.StatusUnhealthy)
             (map_to_list results)
        ∧ ∀ name : string,
            readiness.note_for name
            ∈ readiness.Notes (readiness.body answer)
            ↔ ∃ result : health.CheckResult,
                results !! name = Some result
                ∧ health.Status result = health.StatusUnhealthy).
Proof.
  split; [intros m; reflexivity |].
  exact (Check_notes "dev" Background map_to_list
           [health.probe_db; health.probe_cache] health.at_1000
           ((λ m : gmap string health.CheckResult, reflexivity (map_to_list m)))).
Defined.

Lemma IsHealthy_last_of_name_witness :
  (map_range (map_to_list : gmap string health.CheckResult → _))
  ∧ (∃ (healthy : bool) (s' : health.Run Z),
    health.IsHealthy Background map_to_list
      (health.registered [health.probe_db2; health.probe_db])
      health.at_1000 =
    (Some healthy, s')
    ∧ (healthy = true
       ↔ ∀ (i : nat) (probe : health.Checker Z),
           [health.probe_db2; health.probe_db] !! i = Some probe
           → health.last_of_name [health.probe_db2; health.probe_db] i
             → health.Status
                 (health.call probe Background
                    (health.state_before Background
                       [health.probe_db2; health.probe_db] i
                       health.at_1000)).1
               ≠ health.StatusUnhealthy)).
Proof.
  split; [intros m; reflexivity |].
  exact (IsHealthy_last_of_name Background map_to_list
           [health.probe_db2; health.probe_db] health.at_1000
           ((λ m : gmap string health.CheckResult, reflexivity (map_to_list m)))).
Defined.

Lemma CheckAll_latency_witness :
  ((health.CheckAll Background (health.registered [health.probe_db; health.probe_cache])
     health.at_1000).1 = Some health.db_cache_results)
  ∧ (health.db_cache_results !! "db" = Some health.db_entry)
  ∧ ((health.minDuration ≤ health.Latency health.db_entry
   ≤ health.maxDuration)%Z
  ∧ ((∀ (probe : health.Checker Z) (ctx' : Context) (w : Z),
        probe ∈ [health.probe_db; health.probe_cache]
        → (health.Now w ≤ health.Now (health.Check probe ctx' w).2)%Z)
     → (0 ≤ health.Latency health.db_entry)%Z)).
Proof.
  split; [reflexivity |].
  split; [reflexivity |].
  exact (CheckAll_latency Background [health.probe_db; health.probe_cache]
           health.at_1000 health.db_cache_results "db" health.db_entry
           (eq_refl) (eq_refl)).
Defined.

